(** * jsonpatcher: the JSON-patch event codec and reducer

    A shallow embedding of [src/jsonpatcher/jsonpatcher.go].

    - Go values of type [[]byte] are lists of bytes, Go [int]-based
      enumerations are integers, Go [(value, error)] results are a sum type
      [result] threaded through a small error monad.
    - The collaborators the package only imports are interfaces here: the
      key type, the JSON marshaller, the merge-patch library on serialized
      documents, the CBOR wrapper and the wall clock are fields of type
      classes; the transactional datastore is a reference model of its
      contract together with an arbitrary fault oracle.
    - A Go call that can panic returns an [outcome]. *)

From Stdlib Require Import ZArith Lia List.
From Stdlib Require Import Strings.String Strings.Byte.
From stdpp Require Import gmap strings list fin_maps.

Set Warnings "-register-all".
Local Open Scope Z_scope.

(** Go's [[]byte]. *)
Abbreviation bytes := (list Byte.byte).

(** ** Errors *)

(** The error values that can flow through the package. The three package
    level sentinels and [ds.ErrNotFound] are distinct values; [Errorf] is a
    fresh error made by [fmt.Errorf] carrying its formatted text; [External]
    is an error value handed back by a collaborator, with the error it
    wraps, if any. *)
Inductive error :=
  | errSavingNonExistentInstance
  | errCantCreateExistingInstance
  | errUnknownOperation
  | ErrNotFound
  | Errorf (text : string)
  | External (text : string) (unwrap : option error).

(** [err.Error()]. *)
Definition error_text (e : error) : string :=
  match e with
  | errSavingNonExistentInstance => "can't save nonexistent instance"
  | errCantCreateExistingInstance => "cant't create already existent instance"
  | errUnknownOperation => "unknown operation type"
  | ErrNotFound => "datastore: key not found"
  | Errorf text => text
  | External text _ => text
  end.

(** [errors.Is(err, ds.ErrNotFound)]: follows the chain of wrapped errors. *)
Fixpoint is_ErrNotFound (e : error) : bool :=
  match e with
  | ErrNotFound => true
  | External _ (Some inner) => is_ErrNotFound inner
  | _ => false
  end.

(** A Go [(value, error)] result with a non-nil error carries no value. *)
Inductive result (A : Type) :=
  | Ok (a : A)
  | Err (e : error).
Arguments Ok {A} a.
Arguments Err {A} e.

#[global] Instance result_ret : MRet result := λ A a, Ok a.
#[global] Instance result_bind : MBind result := λ A B f r,
  match r with
  | Ok a => f a
  | Err e => Err e
  end.

(** ** The data model *)

(** [core.EntityID] is a string type; [String()] is the identity. *)
Definition EntityID := string.
Definition EntityID_String (id : EntityID) : string := id.

(** [type operationType int] with its three [iota] constants. *)
Definition operationType := Z.

Module operationType.
Definition create : operationType := 0.
Definition save : operationType := 1.
Definition delete : operationType := 2.
End operationType.

(** [core.ActionType]: an [int]-based enumeration declared in the core
    package as [Create], [Save], [Delete], in that order. *)
Definition ActionType := Z.

Module core.
Definition Create : ActionType := 0.
Definition Save : ActionType := 1.
Definition Delete : ActionType := 2.
End core.

Record operation := {
  op_Type : operationType;
  op_EntityID : EntityID;
  op_JSONPatch : bytes
}.

(** [time.Time], reduced to what [UnixNano] reads: the seconds since the
    Unix epoch (an [int64]) and the nanoseconds within the second. *)
Record Time := {
  unixSec : Z;
  nsec : Z
}.

Record patchEvent := {
  Timestamp : Time;
  ID : EntityID;
  ModelName : string;
  Patch : operation
}.

Definition patchEvent_EntityID (je : patchEvent) : EntityID := ID je.
Definition patchEvent_Model (je : patchEvent) : string := ModelName je.

(** A [core.Event] is an interface value: either one of this package's
    [patchEvent]s, or anything else (an event of another codec, or the nil
    interface value a fresh slice is filled with). *)
Inductive Event :=
  | EvPatch (je : patchEvent)
  | EvOther.

Record ReduceAction := {
  ra_Type : ActionType;
  ra_Model : string;
  ra_EntityID : EntityID
}.

(** The zero value [make] fills a fresh slice with. *)
Definition zeroReduceAction : ReduceAction :=
  {| ra_Type := 0; ra_Model := ""; ra_EntityID := "" |}.

(** ** The transactional datastore

    A reference model of the [ds.TxnDatastore] contract: the datastore is a
    finite map; a transaction holds the snapshot it was opened on and a
    buffer of writes ([Some v] for a put, [None] for a delete); reads inside
    the transaction see its own writes; the buffer reaches the datastore
    only through [Commit]. Every operation may fail with an error chosen by
    an arbitrary [fault] oracle, which sees the operation and the contents
    it runs against. *)
Inductive StoreOp (Key : Type) :=
  | OpNewTransaction
  | OpHas (k : Key)
  | OpGet (k : Key)
  | OpPut (k : Key) (v : bytes)
  | OpDelete (k : Key)
  | OpCommit.
Arguments OpNewTransaction {Key}.
Arguments OpHas {Key} k.
Arguments OpGet {Key} k.
Arguments OpPut {Key} k v.
Arguments OpDelete {Key} k.
Arguments OpCommit {Key}.

(** What a concrete datastore adds to the reference model: its failures and
    [ds.Key.ChildString]. *)
Class Datastore (Key : Type) `{Countable Key} := {
  fault : StoreOp Key → gmap Key bytes → option error;
  ChildString : Key → string → Key
}.

(** The merge-patch library: [jsonpatch.CreateMergePatch] and
    [jsonpatch.MergePatch], on serialized documents. *)
Class MergePatchLib := {
  CreateMergePatch : bytes → bytes → result bytes;
  MergePatch : bytes → bytes → result bytes
}.

Section Reducer.
Context {Key : Type} `{Countable Key} {store : Datastore Key} {lib : MergePatchLib}.

Record Txn := {
  snapshot : gmap Key bytes;
  writes : gmap Key (option bytes)
}.

Definition applyWrites (w : gmap Key (option bytes)) (m : gmap Key bytes)
  : gmap Key bytes :=
  merge (λ ov ow, match ow with Some x => x | None => ov end) m w.

(** What a read inside the transaction sees. *)
Definition txnView (t : Txn) : gmap Key bytes :=
  applyWrites (writes t) (snapshot t).

Definition guarded {A} (op : StoreOp Key) (m : gmap Key bytes) (r : result A)
  : result A :=
  match fault op m with
  | Some e => Err e
  | None => r
  end.

Definition NewTransaction (d : gmap Key bytes) (readOnly : bool) : result Txn :=
  guarded OpNewTransaction d (Ok {| snapshot := d; writes := ∅ |}).

Definition txnHas (t : Txn) (k : Key) : result bool :=
  guarded (OpHas k) (txnView t) (Ok (bool_decide (is_Some (txnView t !! k)))).

Definition txnGet (t : Txn) (k : Key) : result bytes :=
  guarded (OpGet k) (txnView t)
    match txnView t !! k with
    | Some v => Ok v
    | None => Err ErrNotFound
    end.

Definition txnPut (t : Txn) (k : Key) (v : bytes) : result Txn :=
  guarded (OpPut k v) (txnView t)
    (Ok {| snapshot := snapshot t; writes := <[k := Some v]> (writes t) |}).

Definition txnDelete (t : Txn) (k : Key) : result Txn :=
  guarded (OpDelete k) (txnView t)
    (Ok {| snapshot := snapshot t; writes := <[k := None]> (writes t) |}).

(** A failed commit leaves the datastore as it was. *)
Definition txnCommit (t : Txn) (d : gmap Key bytes) : result (gmap Key bytes) :=
  guarded OpCommit (txnView t) (Ok (applyWrites (writes t) d)).

(** ** Reduce *)

(** [baseKey.ChildString(e.Model()).ChildString(e.EntityID().String())] *)
Definition eventKey (baseKey : Key) (je : patchEvent) : Key :=
  ChildString (ChildString baseKey (patchEvent_Model je))
              (EntityID_String (patchEvent_EntityID je)).

(** [core.ReduceAction{Type: kind, Model: e.Model(), EntityID: e.EntityID()}] *)
Definition reduceAction (kind : ActionType) (je : patchEvent) : ReduceAction :=
  {| ra_Type := kind;
     ra_Model := patchEvent_Model je;
     ra_EntityID := patchEvent_EntityID je |}.

(** One iteration of the loop of [Reduce]: the transaction after the
    event and the value stored into [actions[i]], or the error the call
    returns. *)
Definition reduceEvent (txn : Txn) (baseKey : Key) (e : Event)
  : result (Txn * ReduceAction) :=
  match e with
  | EvOther =>
      Err (Errorf "event unrecognized for jsonpatcher eventcodec")
  | EvPatch je =>
      let key := eventKey baseKey je in
      if op_Type (Patch je) =? operationType.create then
        exist ← txnHas txn key;
        if (exist : bool) then Err errCantCreateExistingInstance
        else
          match txnPut txn key (op_JSONPatch (Patch je)) with
          | Err err =>
              Err (Errorf ("error when reducing create event: " +:+ error_text err))
          | Ok txn' => Ok (txn', reduceAction core.Create je)
          end
      else if op_Type (Patch je) =? operationType.save then
        match txnGet txn key with
        | Err err =>
            if is_ErrNotFound err then Err errSavingNonExistentInstance
            else Err err
        | Ok value =>
            match MergePatch value (op_JSONPatch (Patch je)) with
            | Err err =>
                Err (Errorf ("error when reducing save event: " +:+ error_text err))
            | Ok patchedValue =>
                txn' ← txnPut txn key patchedValue;
                Ok (txn', reduceAction core.Save je)
            end
        end
      else if op_Type (Patch je) =? operationType.delete then
        txn' ← txnDelete txn key;
        Ok (txn', reduceAction core.Delete je)
      else Err errUnknownOperation
  end.

(** [for i, e := range events { ... actions[i] = ... }], entered at index
    [i] with the events still to process. *)
Fixpoint reduceLoop (txn : Txn) (baseKey : Key) (i : nat) (events : list Event)
    (actions : list ReduceAction) : result (Txn * list ReduceAction) :=
  match events with
  | [] => Ok (txn, actions)
  | e :: rest =>
      '(txn', a) ← reduceEvent txn baseKey e;
      reduceLoop txn' baseKey (S i) rest (<[i := a]> actions)
  end.

(** [Reduce] returns the Go pair [(actions, err)], [None] standing for
    [nil], next to the datastore as the call leaves it. The deferred
    [txn.Discard()] drops the transaction and its buffered writes. *)
Definition Reduce (events : list Event) (datastore : gmap Key bytes) (baseKey : Key)
  : gmap Key bytes * (option (list ReduceAction) * option error) :=
  match NewTransaction datastore false with
  | Err err => (datastore, (None, Some err))
  | Ok txn =>
      let actions := replicate (length events) zeroReduceAction in
      match reduceLoop txn baseKey 0 events actions with
      | Err err => (datastore, (None, Some err))
      | Ok (txn', actions') =>
          match txnCommit txn' datastore with
          | Err err => (datastore, (None, Some err))
          | Ok datastore' => (datastore', (Some actions', None))
          end
      end
  end.

(** The outcome record of an event: the kind matching its operation type
    with the event's model and entity. Only a [patchEvent] of one of the
    three operation types has one. *)
Definition outcomeOf (e : Event) : option ReduceAction :=
  match e with
  | EvPatch je =>
      if op_Type (Patch je) =? operationType.create then
        Some (reduceAction core.Create je)
      else if op_Type (Patch je) =? operationType.save then
        Some (reduceAction core.Save je)
      else if op_Type (Patch je) =? operationType.delete then
        Some (reduceAction core.Delete je)
      else None
  | EvOther => None
  end.

End Reducer.

(** ** The encoder *)

(** An [interface{}] value as an Action carries it in [Previous] and
    [Current]: a [*string] (possibly a nil pointer), a [[]byte], or a Go
    value of any other dynamic type. *)
Inductive iface (V : Type) :=
  | IStringPtr (p : option string)
  | IBytes (b : bytes)
  | IValue (v : V).
Arguments IStringPtr {V} p.
Arguments IBytes {V} b.
Arguments IValue {V} v.

(** [core.Action]. *)
Record Action (V : Type) := {
  act_Type : ActionType;
  act_EntityID : EntityID;
  act_ModelName : string;
  act_Previous : iface V;
  act_Current : iface V
}.
Arguments act_Type {V} a.
Arguments act_EntityID {V} a.
Arguments act_ModelName {V} a.
Arguments act_Previous {V} a.
Arguments act_Current {V} a.

Record recordEvents := {
  Patches : list patchEvent
}.

Record jsonPatcher := {
  jsonMode : bool
}.

(** A Go call either returns or panics: with the value given to [panic],
    or with a run-time error (a failed type assertion, a nil dereference). *)
Inductive panic :=
  | PanicValue (msg : string)
  | PanicTypeAssertion
  | PanicNilDereference.

Inductive outcome (A : Type) :=
  | Returns (a : A)
  | Panics (p : panic).
Arguments Returns {A} a.
Arguments Panics {A} p.

(** The collaborators of [Create]: [json.Marshal], [cbornode.WrapObject]
    (with the hash function and length the code fixes) and the successive
    readings of [time.Now()] during one call. *)
Class EncoderLib (V Node : Type) := {
  json_Marshal : iface V → result bytes;
  WrapObject : recordEvents → result Node;
  time_Now : nat → Time
}.

(** The zero [patchEvent] a fresh slice is filled with. *)
Definition zeroPatchEvent : patchEvent :=
  {| Timestamp := {| unixSec := 0; nsec := 0 |};
     ID := "";
     ModelName := "";
     Patch := {| op_Type := 0; op_EntityID := ""; op_JSONPatch := [] |} |}.

Section Encoder.
Context {V Node : Type} {enc : EncoderLib V Node} {lib : MergePatchLib}.

Definition createEvent (id : EntityID) (v : iface V) (jsonMode : bool)
  : outcome (result operation) :=
  if jsonMode then
    match v with
    | IStringPtr (Some strjson) =>
        Returns (Ok {| op_Type := operationType.create;
                       op_EntityID := id;
                       op_JSONPatch := list_byte_of_string strjson |})
    | IStringPtr None => Panics PanicNilDereference
    | _ => Panics PanicTypeAssertion
    end
  else
    match json_Marshal v with
    | Err err => Returns (Err err)
    | Ok opBytes =>
        Returns (Ok {| op_Type := operationType.create;
                       op_EntityID := id;
                       op_JSONPatch := opBytes |})
    end.

(** The two branches of [saveEvent] that fill [prevBytes], [currBytes]. *)
Definition saveEvent_inputs (prev curr : iface V) (jsonMode : bool)
  : outcome (result (bytes * bytes)) :=
  if jsonMode then
    match curr with
    | IStringPtr strCurrJson =>
        match prev with
        | IBytes prevBytes =>
            match strCurrJson with
            | Some str => Returns (Ok (prevBytes, list_byte_of_string str))
            | None => Panics PanicNilDereference
            end
        | _ => Panics PanicTypeAssertion
        end
    | _ => Panics PanicTypeAssertion
    end
  else
    Returns (prevBytes ← json_Marshal prev;
             currBytes ← json_Marshal curr;
             Ok (prevBytes, currBytes)).

Definition saveEvent (id : EntityID) (prev curr : iface V) (jsonMode : bool)
  : outcome (result operation) :=
  match saveEvent_inputs prev curr jsonMode with
  | Panics p => Panics p
  | Returns (Err err) => Returns (Err err)
  | Returns (Ok (prevBytes, currBytes)) =>
      Returns (jsonPatch ← CreateMergePatch prevBytes currBytes;
               Ok {| op_Type := operationType.save;
                     op_EntityID := id;
                     op_JSONPatch := jsonPatch |})
  end.

Definition deleteEvent (id : EntityID) : outcome (result operation) :=
  Returns (Ok {| op_Type := operationType.delete;
                 op_EntityID := id;
                 op_JSONPatch := [] |}).

(** The [switch actions[i].Type] of [Create]. *)
Definition translate (jp : jsonPatcher) (a : Action V) : outcome (result operation) :=
  if act_Type a =? core.Create then
    createEvent (act_EntityID a) (act_Current a) (jsonMode jp)
  else if act_Type a =? core.Save then
    saveEvent (act_EntityID a) (act_Previous a) (act_Current a) (jsonMode jp)
  else if act_Type a =? core.Delete then
    deleteEvent (act_EntityID a)
  else Panics (PanicValue "unkown action type").

(** [for i := range actions { ... }], entered at index [i]. *)
Fixpoint createLoop (jp : jsonPatcher) (i : nat) (actions : list (Action V))
    (revents : list patchEvent) (events : list Event)
  : outcome (result (list patchEvent * list Event)) :=
  match actions with
  | [] => Returns (Ok (revents, events))
  | a :: rest =>
      match translate jp a with
      | Panics p => Panics p
      | Returns (Err err) => Returns (Err err)
      | Returns (Ok op) =>
          let pe := {| Timestamp := time_Now i;
                       ID := act_EntityID a;
                       ModelName := act_ModelName a;
                       Patch := op |} in
          createLoop jp (S i) rest (<[i := pe]> revents) (<[i := EvPatch pe]> events)
      end
  end.

(** [Create] returns the Go triple [(events, node, err)], [None] standing
    for [nil], or panics. *)
Definition Create (jp : jsonPatcher) (actions : list (Action V))
  : outcome (option (list Event) * option Node * option error) :=
  let revents := replicate (length actions) zeroPatchEvent in
  let events := replicate (length actions) EvOther in
  match createLoop jp 0 actions revents events with
  | Panics p => Panics p
  | Returns (Err err) => Returns (None, None, Some err)
  | Returns (Ok (revents', events')) =>
      match WrapObject {| Patches := revents' |} with
      | Err err => Returns (None, None, Some err)
      | Ok n => Returns (Some events', Some n, None)
      end
  end.

End Encoder.

(** ** Event time *)

(** Conversion to [int64]: two's complement wrap-around. *)
Definition wrap64 (z : Z) : Z := (z + 2 ^ 63) mod 2 ^ 64 - 2 ^ 63.

(** [Time.UnixNano]: seconds times 1e9 plus nanoseconds, in [int64]
    arithmetic. *)
Definition UnixNano (t : Time) : Z := wrap64 (unixSec t * 1000000000 + nsec t).

(** Go's [byte(v)]: the low eight bits. *)
Definition byte_of_Z (v : Z) : Byte.byte :=
  default Byte.x00 (Byte.of_N (Z.to_N (Z.land v 255))).

(** [binary.BigEndian.PutUint64]. *)
Definition BigEndian_PutUint64 (v : Z) : bytes :=
  [ byte_of_Z (Z.shiftr v 56); byte_of_Z (Z.shiftr v 48);
    byte_of_Z (Z.shiftr v 40); byte_of_Z (Z.shiftr v 32);
    byte_of_Z (Z.shiftr v 24); byte_of_Z (Z.shiftr v 16);
    byte_of_Z (Z.shiftr v 8); byte_of_Z v ].

(** [binary.Write(buf, binary.BigEndian, t)] for [t int64] writes
    [uint64(t)]. *)
Definition patchEvent_Time (je : patchEvent) : bytes :=
  let t := UnixNano (Timestamp je) in
  BigEndian_PutUint64 (t mod 2 ^ 64).

(** [bytes.Compare]: byte-wise lexicographic order, a proper prefix first. *)
Fixpoint bytes_Compare (a b : bytes) : comparison :=
  match a, b with
  | [], [] => Eq
  | [], _ :: _ => Lt
  | _ :: _, [] => Gt
  | x :: a', y :: b' =>
      match N.compare (Byte.to_N x) (Byte.to_N y) with
      | Eq => bytes_Compare a' b'
      | c => c
      end
  end.

Definition bytes_le (a b : bytes) : Prop := bytes_Compare a b ≠ Gt.

(** The unsigned integer a big-endian byte string denotes. *)
Definition BigEndian_value (b : bytes) : Z :=
  fold_left (λ acc x, acc * 256 + Z.of_N (Byte.to_N x)) b 0.

(** ** The merge-patch engine

    [jsonpatch.CreateMergePatch] and [jsonpatch.MergePatch] belong to a
    library the package imports; what follows renders the description the
    specification gives of them (section 4.1), on parsed documents. *)

(** Modelled from the spec: a JSON value. The source of the merge-patch
    library is missing; an object is a finite map from field names to
    values, so that field order is irrelevant to equality; a number stands
    for itself and is only ever compared for equality. *)
Inductive json :=
  | JNull
  | JBool (b : bool)
  | JNum (n : Z)
  | JStr (s : string)
  | JArr (l : list json)
  | JObj (m : gmap string json).

(** The fields of an object; a value that is not an object has none. *)
Definition members (j : json) : gmap string json :=
  match j with
  | JObj m => m
  | _ => ∅
  end.

(** An object written as a list of fields. *)
Definition obj (l : list (string * json)) : json := JObj (list_to_map l).

Fixpoint all_apply {A} (fs : list (A → bool)) (xs : list A) : bool :=
  match fs, xs with
  | [], [] => true
  | f :: fs', x :: xs' => f x && all_apply fs' xs'
  | _, _ => false
  end.

Definition agree_member {A} (og : option (A → bool)) (ox : option A) : option bool :=
  match og, ox with
  | Some g, Some x => Some (g x)
  | None, None => None
  | _, _ => Some false
  end.

Definition all_agree {A} (gs : gmap string (A → bool)) (xs : gmap string A) : bool :=
  bool_decide (map_Forall (λ _ (b : bool), b = true) (merge agree_member gs xs)).

(** Structural equality of JSON values. *)
Fixpoint json_eqb (a : json) : json → bool :=
  match a with
  | JNull => λ b, match b with JNull => true | _ => false end
  | JBool x => λ b, match b with JBool y => bool_decide (x = y) | _ => false end
  | JNum x => λ b, match b with JNum y => bool_decide (x = y) | _ => false end
  | JStr x => λ b, match b with JStr y => bool_decide (x = y) | _ => false end
  | JArr la => λ b, match b with JArr lb => all_apply (json_eqb <$> la) lb | _ => false end
  | JObj ma => λ b, match b with JObj mb => all_agree (json_eqb <$> ma) mb | _ => false end
  end.

Fixpoint json_size (j : json) : nat :=
  match j with
  | JArr l => S (sum_list (json_size <$> l))
  | JObj m => S (map_fold (λ _ n acc, (n + acc)%nat) 0%nat (json_size <$> m))
  | _ => 1
  end.

(** What [Diff] does with one field name, given the field of [previous] and
    the field of [current] paired with its own diff. *)
Definition diff_member (op : option json) (oc : option (json * (json → json)))
  : option json :=
  match op, oc with
  | Some pv, Some (cv, d) => if json_eqb pv cv then None else Some (d pv)
  | None, Some (cv, _) => Some cv
  | Some _, None => Some JNull
  | None, None => None
  end.

(** Modelled from the spec: the recursion of [Diff], on [current], taking
    [previous] second; the source of the merge-patch library is missing. *)
Fixpoint Diff_into (current : json) : json → json :=
  match current with
  | JObj mc => λ previous,
      match previous with
      | JObj mp => JObj (merge diff_member mp ((λ cv, (cv, Diff_into cv)) <$> mc))
      | _ => current
      end
  | _ => λ _, current
  end.

(** Modelled from the spec: [Diff(previous, current)], the computation behind
    [jsonpatch.CreateMergePatch], whose source is missing. "Produces an
    object whose keys are exactly the top-level (recursively, for nested
    objects) fields that differ between previous and current; fields removed
    in current appear in patch mapped to a null marker; fields unchanged are
    omitted; array-valued fields are compared by whole-value replacement; if
    previous/current are not both objects, patch is current verbatim." *)
Definition Diff (previous current : json) : json := Diff_into current previous.

(** What [Apply] does with one field name, given the field of [base] and
    the field of [patch]: [Some None] for the null marker, otherwise the
    application of that field's value as a patch. *)
Definition apply_member (ob : option json) (op : option (option (json → json)))
  : option json :=
  match op with
  | None => ob
  | Some None => None
  | Some (Some f) => Some (f (default JNull ob))
  end.

(** Modelled from the spec: the recursion of [Apply], on [patch], taking
    [base] second; the source of the merge-patch library is missing. *)
Fixpoint Apply_patch (patch : json) : json → json :=
  match patch with
  | JObj mp => λ base,
      JObj (merge apply_member (members base)
              ((λ pv, match pv with
                      | JNull => None
                      | _ => Some (Apply_patch pv)
                      end) <$> mp))
  | _ => λ _, patch
  end.

(** Modelled from the spec: [Apply(base, patch)], the computation behind
    [jsonpatch.MergePatch], whose source is missing. "For each key in patch,
    if mapped to the null marker, remove the key from base; otherwise
    set/recurse; keys of base not mentioned in patch are retained unchanged;
    non-object patch wholly replaces base." As in RFC 7396, which the
    specification names, an object patch applied to a base that is not an
    object (or to a missing field) is applied to the empty object. *)
Definition Apply (base patch : json) : json := Apply_patch patch base.

(** No field of the object, nor of an object nested in it through fields,
    holds null. What arrays contain is not constrained. *)
Fixpoint null_free (j : json) : bool :=
  match j with
  | JObj m =>
      bool_decide (map_Forall (λ _ (b : bool), b = true)
        ((λ v, match v with JNull => false | _ => null_free v end) <$> m))
  | _ => true
  end.

(** ** Concrete collaborators

    Simple instances of the collaborators, on which the definitions above
    can be run. *)

(** A datastore that never fails, with keys built as slash-separated
    paths. *)
Definition memStore : Datastore string := {|
  fault := λ _ _, None;
  ChildString := λ k s, k +:+ "/" +:+ s
|}.

(** A datastore whose transactions refuse every write. *)
Definition readOnlyStore : Datastore string := {|
  fault := λ op _,
    match op with
    | OpPut _ _ | OpDelete _ => Some (External "read-only transaction" None)
    | _ => None
    end;
  ChildString := λ k s, k +:+ "/" +:+ s
|}.

(** A patch library that diffs and patches by whole-document replacement,
    and rejects an empty document. *)
Definition wholeDocument : MergePatchLib := {|
  CreateMergePatch := λ prev curr,
    match prev with
    | [] => Err (External "Invalid JSON Document" None)
    | _ => Ok curr
    end;
  MergePatch := λ doc patch,
    match patch with
    | [] => Err (External "Invalid JSON Patch" None)
    | _ => Ok patch
    end
|}.

(** A marshaller that only knows strings and byte slices, a wrapper that
    lays the payloads end to end, and a clock ticking once per second. *)
Definition plainEncoder : EncoderLib unit bytes := {|
  json_Marshal := λ v,
    match v with
    | IStringPtr (Some s) => Ok (list_byte_of_string s)
    | IStringPtr None => Ok (list_byte_of_string "null")
    | IBytes b => Ok b
    | IValue _ => Err (External "json: unsupported type" None)
    end;
  WrapObject := λ r, Ok (concat (op_JSONPatch ∘ Patch <$> Patches r));
  time_Now := λ i, {| unixSec := 1575158400 + Z.of_nat i; nsec := 0 |}
|}.

Definition textBytes (s : string) : bytes := list_byte_of_string s.

Definition mkEvent (kind : operationType) (model : string) (id : EntityID)
    (payload : string) : Event :=
  EvPatch {| Timestamp := {| unixSec := 1575158400; nsec := 0 |};
             ID := id;
             ModelName := model;
             Patch := {| op_Type := kind; op_EntityID := id;
                         op_JSONPatch := textBytes payload |} |}.

(** Sample events, transactions and stores. *)
Definition quote : string := String (Ascii.ascii_of_nat 34) EmptyString.
Definition jsonField (name value : string) : string :=
  "{" +:+ quote +:+ name +:+ quote +:+ ":" +:+ value +:+ "}".

Definition jeA (kind : operationType) (payload : string) : patchEvent :=
  {| Timestamp := {| unixSec := 1575158400; nsec := 0 |};
     ID := "A";
     ModelName := "user";
     Patch := {| op_Type := kind; op_EntityID := "A";
                 op_JSONPatch := textBytes payload |} |}.

Definition createA : Event := EvPatch (jeA operationType.create (jsonField "x" "1")).
Definition saveA : Event := EvPatch (jeA operationType.save (jsonField "x" "2")).
Definition deleteA : Event := EvPatch (jeA operationType.delete "").
Definition saveB : Event := mkEvent operationType.save "user" "B" (jsonField "x" "2").

Definition emptyTxn : @Txn string _ _ := {| snapshot := ∅; writes := ∅ |}.
Definition withA : gmap string bytes :=
  {[ "model/user/A" := textBytes (jsonField "x" "1") ]}.
Definition txnWithA : @Txn string _ _ := {| snapshot := withA; writes := ∅ |}.

(** Sample Actions: a Create and a Delete that translate, a Create whose
    value the marshaller rejects, and an Action of a kind outside the
    enumeration. *)
Definition structured : jsonPatcher := {| jsonMode := false |}.

Definition actCreateA : Action unit :=
  {| act_Type := core.Create; act_EntityID := "A"; act_ModelName := "user";
     act_Previous := IValue (); act_Current := IStringPtr (Some "x") |}.
Definition actDeleteA : Action unit :=
  {| act_Type := core.Delete; act_EntityID := "A"; act_ModelName := "user";
     act_Previous := IValue (); act_Current := IValue () |}.
Definition actUnmarshallable : Action unit :=
  {| act_Type := core.Create; act_EntityID := "B"; act_ModelName := "user";
     act_Previous := IValue (); act_Current := IValue () |}.
Definition actUnknownKind : Action unit :=
  {| act_Type := 3; act_EntityID := "C"; act_ModelName := "user";
     act_Previous := IValue (); act_Current := IValue () |}.

(** Sample instants: one second and two seconds after the epoch, and one
    nanosecond before it. *)
Definition eventAt (sec ns : Z) : patchEvent :=
  {| Timestamp := {| unixSec := sec; nsec := ns |};
     ID := "A";
     ModelName := "user";
     Patch := {| op_Type := operationType.delete; op_EntityID := "A";
                 op_JSONPatch := [] |} |}.

(** ** The decoder *)

(** The collaborators of [EventsFromBytes] and of its callers:
    [cbornode.DecodeInto] into a [recordEvents], and the [RawData] of the
    node [Create] returned. *)
Class DecoderLib (Node : Type) := {
  RawData : Node → bytes;
  DecodeInto : bytes → result recordEvents
}.

(** [for i := range revents.Patches { res[i] = revents.Patches[i] }],
    entered at index [i]. *)
Fixpoint eventsLoop (i : nat) (patches : list patchEvent) (res : list Event)
  : list Event :=
  match patches with
  | [] => res
  | pe :: rest => eventsLoop (S i) rest (<[i := EvPatch pe]> res)
  end.

Section Decoder.
Context {Node : Type} {dec : DecoderLib Node}.

(** [EventsFromBytes] returns the Go pair [(events, err)]. *)
Definition EventsFromBytes (data : bytes) : option (list Event) * option error :=
  match DecodeInto data with
  | Err err => (None, Some err)
  | Ok revents =>
      let res := replicate (length (Patches revents)) EvOther in
      (Some (eventsLoop 0 (Patches revents) res), None)
  end.

End Decoder.

(** ** What the loops build *)

Section Stamped.
Context {V Node : Type} {enc : EncoderLib V Node}.

(** The [patchEvent] the loop of [Create] writes in slot [i] for an Action
    and its operation. *)
Definition stamped (i : nat) (a : Action V) (op : operation) : patchEvent :=
  {| Timestamp := time_Now i;
     ID := act_EntityID a;
     ModelName := act_ModelName a;
     Patch := op |}.

(** The slots from [i] on, for the Actions and their operations in order. *)
Fixpoint stampedFrom (i : nat) (actions : list (Action V)) (ops : list operation)
  : list patchEvent :=
  match actions, ops with
  | a :: actions', op :: ops' => stamped i a op :: stampedFrom (S i) actions' ops'
  | _, _ => []
  end.

End Stamped.

(** The outcome record that repeats an Action's kind, model and entity. *)
Definition actionRecord {V} (a : Action V) : ReduceAction :=
  {| ra_Type := act_Type a;
     ra_Model := act_ModelName a;
     ra_EntityID := act_EntityID a |}.

(** ** A small binary codec

    A codec on which encode and decode can be run together: integers as
    eight big-endian bytes in two's complement, strings and payloads behind
    a one-byte length, a record behind a one-byte count. What does not fit
    is refused. *)
Definition put_u64 (z : Z) : option bytes :=
  if decide (- 2 ^ 63 ≤ z < 2 ^ 63) then Some (BigEndian_PutUint64 (z mod 2 ^ 64))
  else None.

Definition get_u64 (b : bytes) : option (Z * bytes) :=
  if decide (8 ≤ length b)%nat
  then Some (wrap64 (BigEndian_value (take 8 b)), drop 8 b)
  else None.

Definition put_bytes (s : bytes) : option bytes :=
  if decide (length s < 256)%nat
  then Some (byte_of_Z (Z.of_nat (length s)) :: s)
  else None.

Definition get_bytes (b : bytes) : option (bytes * bytes) :=
  match b with
  | [] => None
  | n :: rest =>
      let k := N.to_nat (Byte.to_N n) in
      if decide (k ≤ length rest)%nat then Some (take k rest, drop k rest) else None
  end.

Definition put_patchEvent (pe : patchEvent) : option bytes :=
  sec ← put_u64 (unixSec (Timestamp pe));
  ns ← put_u64 (nsec (Timestamp pe));
  id ← put_bytes (list_byte_of_string (ID pe));
  model ← put_bytes (list_byte_of_string (ModelName pe));
  kind ← put_u64 (op_Type (Patch pe));
  opid ← put_bytes (list_byte_of_string (op_EntityID (Patch pe)));
  payload ← put_bytes (op_JSONPatch (Patch pe));
  Some (sec ++ ns ++ id ++ model ++ kind ++ opid ++ payload).

Definition get_patchEvent (b : bytes) : option (patchEvent * bytes) :=
  '(sec, b) ← get_u64 b;
  '(ns, b) ← get_u64 b;
  '(id, b) ← get_bytes b;
  '(model, b) ← get_bytes b;
  '(kind, b) ← get_u64 b;
  '(opid, b) ← get_bytes b;
  '(payload, b) ← get_bytes b;
  Some ({| Timestamp := {| unixSec := sec; nsec := ns |};
           ID := string_of_list_byte id;
           ModelName := string_of_list_byte model;
           Patch := {| op_Type := kind;
                       op_EntityID := string_of_list_byte opid;
                       op_JSONPatch := payload |} |}, b).

Fixpoint put_patchEvents (l : list patchEvent) : option bytes :=
  match l with
  | [] => Some []
  | pe :: rest =>
      b ← put_patchEvent pe;
      bs ← put_patchEvents rest;
      Some (b ++ bs)
  end.

Fixpoint get_patchEvents (n : nat) (b : bytes) : option (list patchEvent * bytes) :=
  match n with
  | O => Some ([], b)
  | S n' =>
      '(pe, b) ← get_patchEvent b;
      '(rest, b) ← get_patchEvents n' b;
      Some (pe :: rest, b)
  end.

Definition binaryEncoder : EncoderLib unit bytes := {|
  json_Marshal := json_Marshal (EncoderLib := plainEncoder);
  WrapObject := λ r,
    match put_patchEvents (Patches r) with
    | Some body =>
        if decide (length (Patches r) < 256)%nat
        then Ok (byte_of_Z (Z.of_nat (length (Patches r))) :: body)
        else Err (External "cbor: cannot encode" None)
    | None => Err (External "cbor: cannot encode" None)
    end;
  time_Now := time_Now (EncoderLib := plainEncoder)
|}.

Definition binaryDecoder : DecoderLib bytes := {|
  RawData := λ n, n;
  DecodeInto := λ data,
    match data with
    | count :: body =>
        match get_patchEvents (N.to_nat (Byte.to_N count)) body with
        | Some (l, []) => Ok {| Patches := l |}
        | _ => Err (External "cbor: cannot decode" None)
        end
    | [] => Err (External "cbor: cannot decode" None)
    end
|}.

(** More sample values: a patcher in JSON mode with Actions for it, a
    store that refuses to open, to read or to commit, and events. *)
Definition rawMode : jsonPatcher := {| jsonMode := true |}.

Definition actSaveA : Action unit :=
  {| act_Type := core.Save; act_EntityID := "A"; act_ModelName := "user";
     act_Previous := IBytes (textBytes "x"); act_Current := IStringPtr (Some "y") |}.
Definition actCreateNil : Action unit :=
  {| act_Type := core.Create; act_EntityID := "B"; act_ModelName := "user";
     act_Previous := IValue (); act_Current := IStringPtr None |}.

Definition storeFailing (failing : StoreOp string → bool) : Datastore string := {|
  fault := λ op _,
    if failing op then Some (External "store: i/o error" None) else None;
  ChildString := λ k s, k +:+ "/" +:+ s
|}.

Definition failsOpen : StoreOp string → bool :=
  λ op, match op with OpNewTransaction => true | _ => false end.
Definition failsHas : StoreOp string → bool :=
  λ op, match op with OpHas _ => true | _ => false end.
Definition failsGet : StoreOp string → bool :=
  λ op, match op with OpGet _ => true | _ => false end.
Definition failsPut : StoreOp string → bool :=
  λ op, match op with OpPut _ _ => true | _ => false end.
Definition failsDelete : StoreOp string → bool :=
  λ op, match op with OpDelete _ => true | _ => false end.
Definition failsCommit : StoreOp string → bool :=
  λ op, match op with OpCommit => true | _ => false end.

(** A store whose reads answer "not found" wrapped in an error of its
    own. *)
Definition storeHidingKeys : Datastore string := {|
  fault := λ op _,
    match op with
    | OpGet _ => Some (External "store: lookup failed" (Some ErrNotFound))
    | _ => None
    end;
  ChildString := λ k s, k +:+ "/" +:+ s
|}.

Definition createA' : Event := EvPatch (jeA operationType.create (jsonField "x" "3")).
Definition createB : Event := mkEvent operationType.create "user" "B" (jsonField "y" "1").
Definition saveEmpty : Event := EvPatch (jeA operationType.save "").
Definition txnCreatedA : @Txn string _ _ :=
  {| snapshot := ∅;
     writes := {[ "model/user/A" := Some (textBytes (jsonField "x" "1")) ]} |}.
Definition withB : gmap string bytes :=
  {[ "model/user/B" := textBytes (jsonField "y" "1") ]}.

(** * Properties of the reducer *)

Section ReducerProperties.
Context {Key : Type} `{Countable Key} {store : Datastore Key} {lib : MergePatchLib}.

Implicit Types (txn : @Txn Key _ _) (datastore : gmap Key bytes) (baseKey k : Key).
Implicit Types (events pre post : list Event) (actions : list ReduceAction).

(** *** The datastore model *)

Lemma lookup_applyWrites (w : gmap Key (option bytes)) (m : gmap Key bytes) k :
  applyWrites w m !! k = match w !! k with Some x => x | None => m !! k end.
Proof.
  unfold applyWrites. rewrite lookup_merge.
  destruct (m !! k), (w !! k); reflexivity.
Qed.

Lemma guarded_Ok {A} op (m : gmap Key bytes) (r : result A) (a : A) :
  guarded op m r = Ok a ↔ fault op m = None ∧ r = Ok a.
Proof.
  unfold guarded. destruct (fault op m) as [e|]; split; try done; by intros [? ?].
Qed.

Lemma NewTransaction_Ok datastore readOnly txn :
  NewTransaction datastore readOnly = Ok txn →
  snapshot txn = datastore ∧ txnView txn = datastore.
Proof.
  intros [_ [= <-]]%guarded_Ok. split; [done|].
  apply map_eq. intros k. unfold txnView. simpl.
  by rewrite lookup_applyWrites, lookup_empty.
Qed.

Lemma txnPut_Ok txn k v txn' :
  txnPut txn k v = Ok txn' →
  snapshot txn' = snapshot txn ∧ txnView txn' = <[k := v]> (txnView txn).
Proof.
  intros [_ [= <-]]%guarded_Ok. split; [done|].
  apply map_eq. intros k'. unfold txnView. simpl.
  rewrite lookup_applyWrites.
  destruct (decide (k = k')) as [->|Hne].
  - by rewrite !lookup_insert_eq.
  - by rewrite !lookup_insert_ne, lookup_applyWrites.
Qed.

Lemma txnDelete_Ok txn k txn' :
  txnDelete txn k = Ok txn' →
  snapshot txn' = snapshot txn ∧ txnView txn' = delete k (txnView txn).
Proof.
  intros [_ [= <-]]%guarded_Ok. split; [done|].
  apply map_eq. intros k'. unfold txnView. simpl.
  rewrite lookup_applyWrites.
  destruct (decide (k = k')) as [->|Hne].
  - by rewrite lookup_insert_eq, lookup_delete_eq.
  - by rewrite lookup_insert_ne, lookup_delete_ne, lookup_applyWrites.
Qed.

Lemma txnCommit_Ok txn datastore datastore' :
  snapshot txn = datastore →
  txnCommit txn datastore = Ok datastore' →
  datastore' = txnView txn.
Proof. intros <- [_ [= <-]]%guarded_Ok. reflexivity. Qed.

(** *** One event *)

(** An event that is applied leaves the snapshot of the transaction
    alone. *)
Lemma reduceEvent_snapshot txn baseKey e txn' a :
  reduceEvent txn baseKey e = Ok (txn', a) → snapshot txn' = snapshot txn.
Proof.
  unfold reduceEvent. destruct e as [je|]; [|done].
  repeat case_match; simpl; try done;
    repeat match goal with
           | |- context [txnHas ?t ?k] => destruct (txnHas t k) as [[]|]; simpl
           | |- context [txnPut ?t ?k ?v] => destruct (txnPut t k v) eqn:?; simpl
           | |- context [txnDelete ?t ?k] => destruct (txnDelete t k) eqn:?; simpl
           end; try done; intros [= <- _];
    first [ by eapply txnPut_Ok | by eapply txnDelete_Ok ].
Qed.

Lemma reduceEvent_outcome txn baseKey e txn' a :
  reduceEvent txn baseKey e = Ok (txn', a) → outcomeOf e = Some a.
Proof.
  unfold reduceEvent, outcomeOf. destruct e as [je|]; [|done].
  repeat case_match; simpl; try done;
    repeat match goal with
           | |- context [txnHas ?t ?k] => destruct (txnHas t k) as [[]|]; simpl
           | |- context [txnPut ?t ?k ?v] => destruct (txnPut t k v) eqn:?; simpl
           | |- context [txnDelete ?t ?k] => destruct (txnDelete t k) eqn:?; simpl
           end; try done; by intros [= _ <-].
Qed.

(** *** The loop *)

Lemma reduceLoop_app txn baseKey i pre post actions :
  reduceLoop txn baseKey i (pre ++ post) actions =
  '(txn', actions') ← reduceLoop txn baseKey i pre actions;
  reduceLoop txn' baseKey (i + length pre) post actions'.
Proof.
  revert txn i actions. induction pre as [|e pre IH]; intros txn i actions; simpl.
  - by rewrite Nat.add_0_r.
  - destruct (reduceEvent txn baseKey e) as [[txn1 a]|err]; simpl; [|done].
    by rewrite IH, Nat.add_succ_comm.
Qed.

Lemma reduceLoop_snapshot events txn baseKey i actions txn' actions' :
  reduceLoop txn baseKey i events actions = Ok (txn', actions') →
  snapshot txn' = snapshot txn.
Proof.
  revert txn i actions. induction events as [|e events IH]; intros txn i actions; simpl.
  - by intros [= <- _].
  - destruct (reduceEvent txn baseKey e) as [[txn1 a]|err] eqn:He; simpl; [|done].
    intros Hloop. rewrite (IH _ _ _ Hloop). by eapply reduceEvent_snapshot.
Qed.

(** The loop overwrites the slots from [i] on, one per event and in the
    order of the events, and leaves the slots before [i] alone. *)
Lemma reduceLoop_outcomes events txn baseKey i actions txn' actions' :
  reduceLoop txn baseKey i events actions = Ok (txn', actions') →
  length actions = (i + length events)%nat →
  ∃ outs, Forall2 (λ e a, outcomeOf e = Some a) events outs ∧
          actions' = take i actions ++ outs.
Proof.
  revert txn i actions. induction events as [|e events IH]; intros txn i actions; simpl.
  - intros [= <- <-] Hlen. exists []. split; [constructor|].
    rewrite app_nil_r, take_ge; [done | lia].
  - destruct (reduceEvent txn baseKey e) as [[txn1 a]|err] eqn:He; simpl; [|done].
    intros Hloop Hlen.
    destruct (IH _ _ _ Hloop) as (outs & Houts & ->).
    { rewrite length_insert. lia. }
    exists (a :: outs). split.
    + constructor; [by eapply reduceEvent_outcome | done].
    + rewrite (take_S_r _ _ a) by (apply list_lookup_insert_eq; lia).
      rewrite take_insert_ge by lia. by rewrite <- app_assoc.
Qed.

(** After a commit the datastore holds what the transaction saw. *)
Lemma Reduce_commit events datastore baseKey txn0 txn actions datastore' :
  NewTransaction datastore false = Ok txn0 →
  reduceLoop txn0 baseKey 0 events (replicate (length events) zeroReduceAction)
    = Ok (txn, actions) →
  txnCommit txn datastore = Ok datastore' →
  datastore' = txnView txn.
Proof.
  intros Hnew Hloop Hcommit.
  apply (txnCommit_Ok _ datastore); [|done].
  rewrite (reduceLoop_snapshot _ _ _ _ _ _ _ Hloop).
  by apply NewTransaction_Ok in Hnew as [? _].
Qed.

(** Any error [Reduce] returns comes with no outcome list and with the
    datastore it was given. *)
Lemma Reduce_error_atomic events datastore baseKey datastore' r err :
  Reduce events datastore baseKey = (datastore', (r, Some err)) →
  datastore' = datastore ∧ r = None.
Proof.
  unfold Reduce.
  destruct (NewTransaction datastore false) as [txn0|e0]; [|by intros [= <- <- _]].
  destruct (reduceLoop _ _ _ _ _) as [[txn actions]|e1]; [|by intros [= <- <- _]].
  destruct (txnCommit txn datastore) as [d|e2]; [done | by intros [= <- <- _]].
Qed.

(** The loop stops at the first event that fails, and [Reduce] then hands
    back the error and the datastore it was given. *)
Lemma Reduce_stops_at_failure datastore baseKey pre ev post txn0 txn actions err :
  NewTransaction datastore false = Ok txn0 →
  reduceLoop txn0 baseKey 0 pre
    (replicate (length (pre ++ ev :: post)) zeroReduceAction) = Ok (txn, actions) →
  reduceEvent txn baseKey ev = Err err →
  Reduce (pre ++ ev :: post) datastore baseKey = (datastore, (None, Some err)).
Proof.
  intros Hnew Hpre Hev. unfold Reduce.
  rewrite Hnew, reduceLoop_app, Hpre. simpl. by rewrite Hev.
Qed.

(** A Delete event goes through whenever the store accepts the delete. *)
Lemma reduceEvent_delete txn baseKey je :
  op_Type (Patch je) = operationType.delete →
  fault (OpDelete (eventKey baseKey je)) (txnView txn) = None →
  ∃ txn',
    reduceEvent txn baseKey (EvPatch je) = Ok (txn', reduceAction core.Delete je) ∧
    txnView txn' = delete (eventKey baseKey je) (txnView txn).
Proof.
  intros Hty Hdel.
  destruct (txnDelete txn (eventKey baseKey je)) as [txn'|err] eqn:Hd.
  - exists txn'. destruct (txnDelete_Ok _ _ _ Hd) as [_ Hview].
    split; [|done]. unfold reduceEvent. rewrite Hty, Hd. reflexivity.
  - unfold txnDelete, guarded in Hd. by rewrite Hdel in Hd.
Qed.

(** *** The claims *)

(** C1. If an event of the sequence fails, whether the first one or one
    that follows events already applied to the transaction, [Reduce]
    returns that error alone (the outcome list is nil) and the datastore
    is the one it was given: no event's effect is visible. *)
Theorem Reduce_failure_rolls_back datastore baseKey pre ev post txn0 txn actions err :
  NewTransaction datastore false = Ok txn0 →
  reduceLoop txn0 baseKey 0 pre
    (replicate (length (pre ++ ev :: post)) zeroReduceAction) = Ok (txn, actions) →
  reduceEvent txn baseKey ev = Err err →
  Reduce (pre ++ ev :: post) datastore baseKey = (datastore, (None, Some err)) ∧
  ∀ k, fst (Reduce (pre ++ ev :: post) datastore baseKey) !! k = datastore !! k.
Proof.
  intros Hnew Hpre Hev.
  rewrite (Reduce_stops_at_failure _ _ _ _ _ _ _ _ _ Hnew Hpre Hev). done.
Qed.

(** C5. A Create event whose key the transaction already holds when the
    event is reached makes the call fail with
    [errCantCreateExistingInstance], the datastore being left as it was;
    when the key is absent and the store accepts the write, the event is
    applied and the transaction holds the payload, byte for byte, under
    that key, every other key being as before. *)
Theorem Reduce_create datastore baseKey pre je post txn0 txn actions :
  NewTransaction datastore false = Ok txn0 →
  reduceLoop txn0 baseKey 0 pre
    (replicate (length (pre ++ EvPatch je :: post)) zeroReduceAction)
    = Ok (txn, actions) →
  op_Type (Patch je) = operationType.create →
  fault (OpHas (eventKey baseKey je)) (txnView txn) = None →
  match txnView txn !! eventKey baseKey je with
  | Some _ =>
      Reduce (pre ++ EvPatch je :: post) datastore baseKey
      = (datastore, (None, Some errCantCreateExistingInstance))
  | None =>
      fault (OpPut (eventKey baseKey je) (op_JSONPatch (Patch je))) (txnView txn)
        = None →
      ∃ txn',
        reduceEvent txn baseKey (EvPatch je) = Ok (txn', reduceAction core.Create je) ∧
        txnView txn' = <[eventKey baseKey je := op_JSONPatch (Patch je)]> (txnView txn)
  end.
Proof.
  intros Hnew Hpre Hty Hhas.
  assert (txnHas txn (eventKey baseKey je)
          = Ok (bool_decide (is_Some (txnView txn !! eventKey baseKey je)))) as Hexist.
  { unfold txnHas, guarded. by rewrite Hhas. }
  destruct (txnView txn !! eventKey baseKey je) as [v|] eqn:Hk.
  - eapply Reduce_stops_at_failure; [done..|].
    unfold reduceEvent. rewrite Hty, Hexist. reflexivity.
  - intros Hput.
    destruct (txnPut txn (eventKey baseKey je) (op_JSONPatch (Patch je)))
      as [txn'|err] eqn:Hp.
    + exists txn'. split; [|by eapply txnPut_Ok].
      unfold reduceEvent. rewrite Hty, Hexist. simpl. by rewrite Hp.
    + unfold txnPut, guarded in Hp. by rewrite Hput in Hp.
Qed.

(** C6. A Save event whose key the transaction does not hold when the
    event is reached makes the call fail with
    [errSavingNonExistentInstance], the datastore being left as it was (no
    key is created); when the key is present, the patch applies to the
    stored value and the store accepts the write, the event is applied and
    the transaction holds the patched value under that key, every other
    key being as before. *)
Theorem Reduce_save datastore baseKey pre je post txn0 txn actions :
  NewTransaction datastore false = Ok txn0 →
  reduceLoop txn0 baseKey 0 pre
    (replicate (length (pre ++ EvPatch je :: post)) zeroReduceAction)
    = Ok (txn, actions) →
  op_Type (Patch je) = operationType.save →
  fault (OpGet (eventKey baseKey je)) (txnView txn) = None →
  match txnView txn !! eventKey baseKey je with
  | None =>
      Reduce (pre ++ EvPatch je :: post) datastore baseKey
      = (datastore, (None, Some errSavingNonExistentInstance))
  | Some value =>
      ∀ patchedValue,
        MergePatch value (op_JSONPatch (Patch je)) = Ok patchedValue →
        fault (OpPut (eventKey baseKey je) patchedValue) (txnView txn) = None →
        ∃ txn',
          reduceEvent txn baseKey (EvPatch je) = Ok (txn', reduceAction core.Save je) ∧
          txnView txn' = <[eventKey baseKey je := patchedValue]> (txnView txn)
  end.
Proof.
  intros Hnew Hpre Hty Hget.
  assert (txnGet txn (eventKey baseKey je)
          = match txnView txn !! eventKey baseKey je with
            | Some v => Ok v
            | None => Err ErrNotFound
            end) as Hread.
  { unfold txnGet, guarded. by rewrite Hget. }
  destruct (txnView txn !! eventKey baseKey je) as [value|] eqn:Hk.
  - intros patchedValue Hpatch Hput.
    destruct (txnPut txn (eventKey baseKey je) patchedValue) as [txn'|err] eqn:Hp.
    + exists txn'. split; [|by eapply txnPut_Ok].
      unfold reduceEvent. rewrite Hty, Hread, Hpatch, Hp. reflexivity.
    + unfold txnPut, guarded in Hp. by rewrite Hput in Hp.
  - eapply Reduce_stops_at_failure; [done..|].
    unfold reduceEvent. rewrite Hty, Hread. reflexivity.
Qed.

(** C7. When every event applies and the commit goes through, [Reduce]
    returns no error, the datastore holds what the transaction saw, and
    the outcome list has one record per event, in the order of the events,
    the i-th carrying the kind, model and entity of the i-th event. *)
Theorem Reduce_outcomes events datastore baseKey txn0 txn actions datastore' :
  NewTransaction datastore false = Ok txn0 →
  reduceLoop txn0 baseKey 0 events (replicate (length events) zeroReduceAction)
    = Ok (txn, actions) →
  txnCommit txn datastore = Ok datastore' →
  Reduce events datastore baseKey = (datastore', (Some actions, None)) ∧
  datastore' = txnView txn ∧
  Forall2 (λ e a, outcomeOf e = Some a) events actions.
Proof.
  intros Hnew Hloop Hcommit. split; [|split].
  - unfold Reduce. by rewrite Hnew, Hloop, Hcommit.
  - by eapply Reduce_commit.
  - destruct (reduceLoop_outcomes _ _ _ _ _ _ _ Hloop) as (outs & Houts & ->); [|done].
    by rewrite length_replicate.
Qed.

(** C8. A Delete event is applied whenever the store accepts the delete,
    whether or not the transaction holds the key: the key is gone
    afterwards, and when it was absent already the contents the
    transaction sees are unchanged. *)
Theorem Reduce_delete txn baseKey je :
  op_Type (Patch je) = operationType.delete →
  fault (OpDelete (eventKey baseKey je)) (txnView txn) = None →
  ∃ txn',
    reduceEvent txn baseKey (EvPatch je) = Ok (txn', reduceAction core.Delete je) ∧
    txnView txn' !! eventKey baseKey je = None ∧
    (∀ k, k ≠ eventKey baseKey je → txnView txn' !! k = txnView txn !! k) ∧
    (txnView txn !! eventKey baseKey je = None → txnView txn' = txnView txn).
Proof.
  intros Hty Hdel.
  destruct (reduceEvent_delete txn baseKey je Hty Hdel) as (txn' & Hev & Hview).
  exists txn'. rewrite Hview. split; [done|]. split; [|split].
  - apply lookup_delete_eq.
  - intros k Hk. by apply lookup_delete_ne.
  - apply delete_id.
Qed.

(** A call made of one Delete event for a key the datastore does not hold
    succeeds and leaves the datastore as it was. *)
Lemma Reduce_delete_absent datastore baseKey je :
  (∀ op m, fault op m = None) →
  op_Type (Patch je) = operationType.delete →
  datastore !! eventKey baseKey je = None →
  Reduce [EvPatch je] datastore baseKey
  = (datastore, (Some [reduceAction core.Delete je], None)).
Proof.
  intros Hok Hty Habsent.
  destruct (NewTransaction datastore false) as [txn0|err] eqn:Hnew;
    [|unfold NewTransaction, guarded in Hnew; by rewrite Hok in Hnew].
  destruct (NewTransaction_Ok _ _ _ Hnew) as [Hsnap Hview0].
  destruct (reduceEvent_delete txn0 baseKey je Hty (Hok _ _)) as (txn' & Hev & Hview).
  assert (txnCommit txn' datastore = Ok (txnView txn')) as Hcommit.
  { unfold txnCommit, guarded. rewrite Hok. unfold txnView.
    by rewrite (reduceEvent_snapshot _ _ _ _ _ Hev), Hsnap. }
  unfold Reduce. rewrite Hnew. cbn [reduceLoop]. rewrite Hev. cbn.
  rewrite Hcommit, Hview, Hview0. by rewrite delete_id.
Qed.

End ReducerProperties.

(** * The reducer on concrete calls *)

(** Scenario A: a Create is stored under [model/user/A]; a second Create
    for the same key fails and leaves the stored value alone. *)
Example scenario_A_first :
  Reduce (store := memStore) (lib := wholeDocument) [createA] ∅ "model"
  = (withA, (Some [{| ra_Type := core.Create; ra_Model := "user"; ra_EntityID := "A" |}],
             None)).
Proof. vm_compute. reflexivity. Qed.

Example scenario_A_second :
  Reduce (store := memStore) (lib := wholeDocument) [createA] withA "model"
  = (withA, (None, Some errCantCreateExistingInstance)).
Proof. vm_compute. reflexivity. Qed.

(** Scenario C: a Save for a key that does not exist. *)
Example scenario_C :
  Reduce (store := memStore) (lib := wholeDocument) [saveB] withA "model"
  = (withA, (None, Some errSavingNonExistentInstance)).
Proof. vm_compute. reflexivity. Qed.

(** A store error on a later event: the write of the first event is
    refused by the store, and the error is passed on wrapped in text. *)
Example refused_write :
  Reduce (store := readOnlyStore) (lib := wholeDocument) [createA; saveB] ∅ "model"
  = (∅, (None, Some (Errorf "error when reducing create event: read-only transaction"))).
Proof. vm_compute. reflexivity. Qed.

(** An event of an unknown operation type, and an event that is not a
    [patchEvent]. *)
Example unknown_operation :
  Reduce (store := memStore) (lib := wholeDocument)
    [createA; mkEvent 7 "user" "A" ""] ∅ "model"
  = (∅, (None, Some errUnknownOperation)).
Proof. vm_compute. reflexivity. Qed.

Example unrecognized_event :
  Reduce (store := memStore) (lib := wholeDocument) [createA; EvOther] ∅ "model"
  = (∅, (None, Some (Errorf "event unrecognized for jsonpatcher eventcodec"))).
Proof. vm_compute. reflexivity. Qed.

(** Scenario E: the Create of [A] is applied inside the transaction, the
    Save of the missing [B] fails, and [A] is absent afterwards. *)
Lemma Reduce_failure_rolls_back_witness :
  Reduce (store := memStore) (lib := wholeDocument) [createA; saveB] ∅ "model"
  = (∅, (None, Some errSavingNonExistentInstance)).
Proof.
  refine (proj1 (Reduce_failure_rolls_back (store := memStore) (lib := wholeDocument)
           ∅ "model" [createA] saveB [] emptyTxn
           {| snapshot := ∅;
              writes := {[ "model/user/A" := Some (textBytes (jsonField "x" "1")) ]} |}
           [{| ra_Type := core.Create; ra_Model := "user"; ra_EntityID := "A" |};
            zeroReduceAction] _ _ _ _));
    vm_compute; reflexivity.
Defined.

Lemma Reduce_create_witness :
  Reduce (store := memStore) (lib := wholeDocument) [createA] withA "model"
  = (withA, (None, Some errCantCreateExistingInstance))
  ∧ ∃ txn',
      reduceEvent (store := memStore) (lib := wholeDocument) emptyTxn "model" createA
      = Ok (txn', {| ra_Type := core.Create; ra_Model := "user"; ra_EntityID := "A" |})
      ∧ txnView txn' = <["model/user/A" := textBytes (jsonField "x" "1")]> (txnView emptyTxn).
Proof.
  split.
  - exact (Reduce_create (store := memStore) (lib := wholeDocument)
             withA "model" [] (jeA operationType.create (jsonField "x" "1")) []
             txnWithA txnWithA [zeroReduceAction]
             eq_refl eq_refl eq_refl eq_refl).
  - exact (Reduce_create (store := memStore) (lib := wholeDocument)
             ∅ "model" [] (jeA operationType.create (jsonField "x" "1")) []
             emptyTxn emptyTxn [zeroReduceAction]
             eq_refl eq_refl eq_refl eq_refl eq_refl).
Defined.

Lemma Reduce_save_witness :
  Reduce (store := memStore) (lib := wholeDocument) [saveA] ∅ "model"
  = (∅, (None, Some errSavingNonExistentInstance))
  ∧ ∃ txn',
      reduceEvent (store := memStore) (lib := wholeDocument) txnWithA "model" saveA
      = Ok (txn', {| ra_Type := core.Save; ra_Model := "user"; ra_EntityID := "A" |})
      ∧ txnView txn' = <["model/user/A" := textBytes (jsonField "x" "2")]> (txnView txnWithA).
Proof.
  split.
  - exact (Reduce_save (store := memStore) (lib := wholeDocument)
             ∅ "model" [] (jeA operationType.save (jsonField "x" "2")) []
             emptyTxn emptyTxn [zeroReduceAction]
             eq_refl eq_refl eq_refl eq_refl).
  - exact (Reduce_save (store := memStore) (lib := wholeDocument)
             withA "model" [] (jeA operationType.save (jsonField "x" "2")) []
             txnWithA txnWithA [zeroReduceAction]
             eq_refl eq_refl eq_refl eq_refl
             (textBytes (jsonField "x" "2")) eq_refl eq_refl).
Defined.

Lemma Reduce_outcomes_witness :
  Reduce (store := memStore) (lib := wholeDocument) [createA; saveA; deleteA] ∅ "model"
  = (∅, (Some [{| ra_Type := core.Create; ra_Model := "user"; ra_EntityID := "A" |};
               {| ra_Type := core.Save; ra_Model := "user"; ra_EntityID := "A" |};
               {| ra_Type := core.Delete; ra_Model := "user"; ra_EntityID := "A" |}],
         None)).
Proof.
  refine (proj1 (Reduce_outcomes (store := memStore) (lib := wholeDocument)
                   [createA; saveA; deleteA] ∅ "model" emptyTxn
                   {| snapshot := ∅; writes := {[ "model/user/A" := None ]} |}
                   _ ∅ _ _ _));
    vm_compute; reflexivity.
Defined.

(** Scenario D: a Delete for a key that does not exist. *)
Lemma Reduce_delete_witness :
  ∃ txn',
    reduceEvent (store := memStore) (lib := wholeDocument) emptyTxn "model" deleteA
    = Ok (txn', {| ra_Type := core.Delete; ra_Model := "user"; ra_EntityID := "A" |})
    ∧ txnView txn' !! "model/user/A" = None
    ∧ (∀ k, k ≠ "model/user/A" → txnView txn' !! k = txnView emptyTxn !! k)
    ∧ (txnView emptyTxn !! "model/user/A" = None → txnView txn' = txnView emptyTxn).
Proof.
  exact (Reduce_delete (store := memStore) (lib := wholeDocument)
           emptyTxn "model" (jeA operationType.delete "") eq_refl eq_refl).
Defined.

Example scenario_D :
  Reduce (store := memStore) (lib := wholeDocument) [deleteA] withA "other"
  = (withA, (Some [{| ra_Type := core.Delete; ra_Model := "user"; ra_EntityID := "A" |}],
             None)).
Proof. vm_compute. reflexivity. Qed.


(** * Properties of the encoder *)

Section EncoderProperties.
Context {V Node : Type} {enc : EncoderLib V Node} {lib : MergePatchLib}.

Implicit Types (jp : jsonPatcher) (a : Action V) (pre post : list (Action V)).

(** The loop runs through a prefix of Actions that all translate and
    reaches the next Action with some state of the two slices. *)
Lemma createLoop_prefix jp pre rest i revents events :
  Forall (λ a, ∃ op, translate jp a = Returns (Ok op)) pre →
  ∃ revents' events',
    createLoop jp i (pre ++ rest) revents events
    = createLoop jp (i + length pre) rest revents' events'.
Proof.
  intros Hpre. revert i revents events.
  induction Hpre as [|a pre [op Ha] _ IH]; intros i revents events; simpl.
  - exists revents, events. by rewrite Nat.add_0_r.
  - rewrite Ha. rewrite <- Nat.add_succ_comm. apply IH.
Qed.

(** C9. When an Action fails to translate, every Action before it having
    translated, [Create] returns the error of that Action and nothing
    else: the event list and the node are nil. *)
Theorem Create_aborts_on_first_failure jp pre a post err :
  Forall (λ a', ∃ op, translate jp a' = Returns (Ok op)) pre →
  translate jp a = Returns (Err err) →
  Create jp (pre ++ a :: post) = Returns (None, None, Some err).
Proof.
  intros Hpre Ha. unfold Create.
  destruct (createLoop_prefix jp pre (a :: post) 0
              (replicate (length (pre ++ a :: post)) zeroPatchEvent)
              (replicate (length (pre ++ a :: post)) EvOther) Hpre)
    as (revents' & events' & ->).
  simpl. by rewrite Ha.
Qed.

(** C4, as the code has it. When an Action's kind is none of Create, Save
    and Delete, every Action before it having translated, [Create] does
    not return: it panics with the value "unkown action type". No error
    value, event list or node reaches the caller. *)
Theorem Create_panics_on_unknown_kind jp pre a post :
  Forall (λ a', ∃ op, translate jp a' = Returns (Ok op)) pre →
  act_Type a ≠ core.Create → act_Type a ≠ core.Save → act_Type a ≠ core.Delete →
  Create jp (pre ++ a :: post) = Panics (PanicValue "unkown action type").
Proof.
  intros Hpre Hc Hs Hd. unfold Create.
  destruct (createLoop_prefix jp pre (a :: post) 0
              (replicate (length (pre ++ a :: post)) zeroPatchEvent)
              (replicate (length (pre ++ a :: post)) EvOther) Hpre)
    as (revents' & events' & ->).
  simpl. unfold translate.
  apply Z.eqb_neq in Hc, Hs, Hd. by rewrite Hc, Hs, Hd.
Qed.

End EncoderProperties.

(** * The encoder on concrete calls *)

Example Create_success :
  Create (enc := plainEncoder) (lib := wholeDocument) structured [actCreateA; actDeleteA]
  = Returns
      (Some [EvPatch {| Timestamp := {| unixSec := 1575158400; nsec := 0 |};
                        ID := "A"; ModelName := "user";
                        Patch := {| op_Type := operationType.create; op_EntityID := "A";
                                    op_JSONPatch := textBytes "x" |} |};
             EvPatch {| Timestamp := {| unixSec := 1575158401; nsec := 0 |};
                        ID := "A"; ModelName := "user";
                        Patch := {| op_Type := operationType.delete; op_EntityID := "A";
                                    op_JSONPatch := [] |} |}],
       Some (textBytes "x"), None).
Proof. vm_compute. reflexivity. Qed.

Lemma Create_aborts_on_first_failure_witness :
  Create (enc := plainEncoder) (lib := wholeDocument) structured
    [actCreateA; actUnmarshallable; actDeleteA]
  = Returns (None, None, Some (External "json: unsupported type" None)).
Proof.
  apply (Create_aborts_on_first_failure (enc := plainEncoder) (lib := wholeDocument)
           structured [actCreateA] actUnmarshallable [actDeleteA]).
  - constructor; [eexists; reflexivity | constructor].
  - reflexivity.
Defined.

(** C4, as the claim has it, fails: for an Action list holding an Action of
    unknown kind, [Create] hands no error result, of any kind, to its
    caller. *)
Lemma Create_unknown_kind_returns_nothing :
  ¬ ∃ r, Create (enc := plainEncoder) (lib := wholeDocument) structured
           [actCreateA; actUnknownKind] = Returns r.
Proof. intros [r Hr]. vm_compute in Hr. discriminate Hr. Qed.

Lemma Create_panics_on_unknown_kind_witness :
  Create (enc := plainEncoder) (lib := wholeDocument) structured
    [actCreateA; actUnknownKind; actUnmarshallable]
  = Panics (PanicValue "unkown action type").
Proof.
  apply (Create_panics_on_unknown_kind (enc := plainEncoder) (lib := wholeDocument)
           structured [actCreateA] actUnknownKind [actUnmarshallable]).
  - constructor; [eexists; reflexivity | constructor].
  - discriminate.
  - discriminate.
  - discriminate.
Defined.

(** An unknown kind behind an Action that fails to translate is never
    reached: the earlier error is returned. *)
Example Create_error_before_unknown_kind :
  Create (enc := plainEncoder) (lib := wholeDocument) structured
    [actUnmarshallable; actUnknownKind]
  = Returns (None, None, Some (External "json: unsupported type" None)).
Proof. vm_compute. reflexivity. Qed.

(** * Properties of the event time *)

Lemma byte_of_Z_value (v : Z) : Z.of_N (Byte.to_N (byte_of_Z v)) = v mod 256.
Proof.
  unfold byte_of_Z.
  change 255 with (Z.ones 8). rewrite Z.land_ones by lia. change (2 ^ 8) with 256.
  pose proof (Z.mod_pos_bound v 256 ltac:(lia)) as Hb.
  destruct (Byte.of_N (Z.to_N (v mod 256))) as [b|] eqn:Hof.
  - apply Byte.to_of_N in Hof. simpl. rewrite Hof. lia.
  - apply Byte.of_N_None_iff in Hof. lia.
Qed.

Lemma byte_value_range (x : Byte.byte) : 0 ≤ Z.of_N (Byte.to_N x) < 256.
Proof. pose proof (Byte.to_N_bounded x). lia. Qed.

Lemma BigEndian_value_acc (b : bytes) (acc : Z) :
  fold_left (λ acc x, acc * 256 + Z.of_N (Byte.to_N x)) b acc
  = acc * 256 ^ Z.of_nat (length b) + BigEndian_value b.
Proof.
  unfold BigEndian_value. revert acc.
  induction b as [|x b IH]; intros acc.
  - simpl. lia.
  - cbn [fold_left length]. rewrite IH, (IH (0 * 256 + _)).
    rewrite Nat2Z.inj_succ, Z.pow_succ_r by lia. lia.
Qed.

Lemma BigEndian_value_cons (x : Byte.byte) (b : bytes) :
  BigEndian_value (x :: b)
  = Z.of_N (Byte.to_N x) * 256 ^ Z.of_nat (length b) + BigEndian_value b.
Proof.
  unfold BigEndian_value at 1. cbn [fold_left]. rewrite BigEndian_value_acc. lia.
Qed.

Lemma BigEndian_value_range (b : bytes) :
  0 ≤ BigEndian_value b < 256 ^ Z.of_nat (length b).
Proof.
  induction b as [|x b IH].
  - unfold BigEndian_value. simpl. lia.
  - rewrite BigEndian_value_cons. cbn [length].
    rewrite Nat2Z.inj_succ, Z.pow_succ_r by lia.
    pose proof (byte_value_range x). nia.
Qed.

(** Among byte strings of one length, the byte-wise order follows the order
    of the integers they denote. *)
Lemma bytes_le_value (a b : bytes) :
  length a = length b →
  BigEndian_value a ≤ BigEndian_value b →
  bytes_le a b.
Proof.
  unfold bytes_le. revert b.
  induction a as [|x a IH]; intros [|y b] Hlen Hle; try done.
  cbn [bytes_Compare]. injection Hlen as Hlen.
  rewrite !BigEndian_value_cons, Hlen in Hle.
  pose proof (BigEndian_value_range a) as Ha. rewrite Hlen in Ha.
  pose proof (BigEndian_value_range b) as Hb.
  destruct (N.compare_spec (Byte.to_N x) (Byte.to_N y)) as [Heq|Hlt|Hgt].
  - apply IH; [done|]. rewrite Heq in Hle. lia.
  - done.
  - exfalso. nia.
Qed.

Lemma PutUint64_value (v : Z) :
  0 ≤ v < 2 ^ 64 → BigEndian_value (BigEndian_PutUint64 v) = v.
Proof.
  intros Hv. unfold BigEndian_PutUint64, BigEndian_value. cbn [fold_left].
  rewrite !byte_of_Z_value, !Z.shiftr_div_pow2 by lia.
  change (2 ^ 64) with 18446744073709551616 in Hv.
  change (2 ^ 56) with 72057594037927936.
  change (2 ^ 48) with 281474976710656.
  change (2 ^ 40) with 1099511627776.
  change (2 ^ 32) with 4294967296.
  change (2 ^ 24) with 16777216.
  change (2 ^ 16) with 65536.
  change (2 ^ 8) with 256.
  Z.div_mod_to_equations. lia.
Qed.

Lemma UnixNano_range (t : Time) : - 2 ^ 63 ≤ UnixNano t < 2 ^ 63.
Proof.
  unfold UnixNano, wrap64.
  pose proof (Z.mod_pos_bound (unixSec t * 1000000000 + nsec t + 2 ^ 63) (2 ^ 64)
                ltac:(lia)).
  lia.
Qed.

(** C10. [Time()] is eight bytes long and denotes, read as a big-endian
    unsigned integer, the [UnixNano] value of the timestamp in two's
    complement; and of two events with non-negative [UnixNano] values, the
    one that is not later has the byte string that is not greater in the
    byte-wise order. *)
Theorem patchEvent_Time_order (je je' : patchEvent) :
  length (patchEvent_Time je) = 8%nat ∧
  BigEndian_value (patchEvent_Time je) = UnixNano (Timestamp je) mod 2 ^ 64 ∧
  (0 ≤ UnixNano (Timestamp je) ≤ UnixNano (Timestamp je') →
   bytes_le (patchEvent_Time je) (patchEvent_Time je')).
Proof.
  assert (∀ e, BigEndian_value (patchEvent_Time e) = UnixNano (Timestamp e) mod 2 ^ 64)
    as Hvalue.
  { intros e. unfold patchEvent_Time. apply PutUint64_value.
    apply Z.mod_pos_bound. lia. }
  split; [reflexivity | split; [apply Hvalue|]].
  intros Hle. apply bytes_le_value; [reflexivity|].
  rewrite !Hvalue.
  pose proof (UnixNano_range (Timestamp je)).
  pose proof (UnixNano_range (Timestamp je')).
  rewrite !Z.mod_small by lia. lia.
Qed.

Lemma patchEvent_Time_order_witness :
  bytes_le (patchEvent_Time (eventAt 1 999999999)) (patchEvent_Time (eventAt 2 0)).
Proof.
  apply (patchEvent_Time_order (eventAt 1 999999999) (eventAt 2 0)).
  vm_compute. split; discriminate.
Defined.

Example patchEvent_Time_bytes :
  patchEvent_Time (eventAt 1 2)
  = [Byte.x00; Byte.x00; Byte.x00; Byte.x00; Byte.x3b; Byte.x9a; Byte.xca; Byte.x02].
Proof. vm_compute. reflexivity. Qed.

(** Before the epoch [UnixNano] is negative and the order is lost: the byte
    string of the earlier event is the greater one. *)
Example patchEvent_Time_before_epoch :
  UnixNano (Timestamp (eventAt (-1) 999999999)) = -1 ∧
  bytes_Compare (patchEvent_Time (eventAt (-1) 999999999)) (patchEvent_Time (eventAt 1 0))
  = Gt.
Proof. vm_compute. split; reflexivity. Qed.

(** * Properties of the merge-patch engine *)

Lemma sum_list_elem (l : list nat) (n : nat) : n ∈ l → (n ≤ sum_list l)%nat.
Proof. induction 1 as [x l|x y l _ IH]; simpl; lia. Qed.

Lemma map_sum_lookup (m : gmap string nat) (k : string) (n : nat) :
  m !! k = Some n → (n ≤ map_fold (λ _ n acc, (n + acc)%nat) 0%nat m)%nat.
Proof.
  intros Hk.
  rewrite (map_fold_delete_L _ _ k n m); [lia | intros; lia | done].
Qed.

Lemma json_size_member (m : gmap string json) (k : string) (v : json) :
  m !! k = Some v → (json_size v < json_size (JObj m))%nat.
Proof.
  intros Hk. simpl.
  assert ((json_size <$> m) !! k = Some (json_size v)) as Hs
    by (by rewrite lookup_fmap, Hk).
  apply map_sum_lookup in Hs. lia.
Qed.

Lemma json_size_elem (l : list json) (v : json) :
  v ∈ l → (json_size v < json_size (JArr l))%nat.
Proof.
  intros Hv. simpl.
  assert (json_size v ∈ json_size <$> l) as Hs by (by apply list_elem_of_fmap_2).
  apply sum_list_elem in Hs. lia.
Qed.

(** Induction on JSON values, with the hypothesis for every element of an
    array and every field of an object. *)
Lemma json_ind' (P : json → Prop) :
  P JNull → (∀ b, P (JBool b)) → (∀ n, P (JNum n)) → (∀ s, P (JStr s)) →
  (∀ l, Forall P l → P (JArr l)) →
  (∀ m, map_Forall (λ _, P) m → P (JObj m)) →
  ∀ j, P j.
Proof.
  intros Hnull Hbool Hnum Hstr Harr Hobj j.
  remember (json_size j) as n eqn:Hn. revert j Hn.
  induction n as [n IH] using lt_wf_ind. intros j ->.
  destruct j as [| | | |l|m]; auto.
  - apply Harr, Forall_forall. intros v Hv.
    apply (IH (json_size v)); [by apply json_size_elem | done].
  - apply Hobj. intros k v Hk.
    apply (IH (json_size v)); [by apply (json_size_member m k) | done].
Qed.

Lemma all_apply_spec {A} (g : A → A → bool) (la lb : list A) :
  Forall (λ a, ∀ b, g a b = true ↔ a = b) la →
  all_apply (g <$> la) lb = true ↔ la = lb.
Proof.
  intros Hall. revert lb.
  induction Hall as [|a la Ha _ IH]; intros [|b lb]; simpl; try (split; congruence).
  rewrite andb_true_iff, Ha, IH. split; [by intros [-> ->] | by intros [= -> ->]].
Qed.

Lemma all_agree_spec {A} (g : A → A → bool) (ma mb : gmap string A) :
  map_Forall (λ _ a, ∀ b, g a b = true ↔ a = b) ma →
  all_agree (g <$> ma) mb = true ↔ ma = mb.
Proof.
  intros Hall. unfold all_agree. rewrite bool_decide_eq_true. split.
  - intros Hm. apply map_eq. intros k.
    specialize (Hm k). rewrite lookup_merge, lookup_fmap in Hm.
    destruct (ma !! k) as [a|] eqn:Ha, (mb !! k) as [b|] eqn:Hb; simpl in Hm; try done.
    + f_equal. apply (Hall k a Ha). by apply Hm.
    + by specialize (Hm false eq_refl).
    + by specialize (Hm false eq_refl).
  - intros <- k b. rewrite lookup_merge, lookup_fmap.
    destruct (ma !! k) as [a|] eqn:Ha; simpl; [|done].
    intros [= <-]. by apply (Hall k a Ha).
Qed.

(** [json_eqb] decides equality; objects being finite maps, equality does
    not see the order in which fields were written. *)
Lemma json_eqb_eq (a b : json) : json_eqb a b = true ↔ a = b.
Proof.
  revert b.
  induction a as [|x|x|x|la IH|ma IH] using json_ind'; intros [|y|y|y|lb|mb];
    simpl; try (split; congruence);
    try (rewrite bool_decide_eq_true; split; congruence).
  - rewrite (all_apply_spec json_eqb la lb IH). split; congruence.
  - rewrite (all_agree_spec json_eqb ma mb IH). split; congruence.
Qed.

Lemma null_free_obj (m : gmap string json) :
  null_free (JObj m) = true ↔ map_Forall (λ _ v, v ≠ JNull ∧ null_free v = true) m.
Proof.
  simpl. rewrite bool_decide_eq_true. split.
  - intros Hm k v Hk. specialize (Hm k). rewrite lookup_fmap, Hk in Hm. simpl in Hm.
    destruct v; try (by specialize (Hm _ eq_refl)); split; try done; by apply Hm.
  - intros Hm k b. rewrite lookup_fmap. destruct (m !! k) as [v|] eqn:Hk; [|done].
    simpl. intros [= <-]. destruct (Hm k v Hk) as [Hn Hf]. by destruct v.
Qed.

(** [Apply], field by field. *)
Lemma Apply_patch_obj (mp : gmap string json) (base : json) (k : string) :
  members (Apply_patch (JObj mp) base) !! k =
    match mp !! k with
    | None => members base !! k
    | Some JNull => None
    | Some pv => Some (Apply_patch pv (default JNull (members base !! k)))
    end.
Proof.
  simpl. rewrite lookup_merge, lookup_fmap.
  destruct (mp !! k) as [[]|], (members base !! k); reflexivity.
Qed.

(** [Diff], field by field. *)
Lemma Diff_obj (mp mc : gmap string json) (k : string) :
  members (Diff (JObj mp) (JObj mc)) !! k =
    match mp !! k, mc !! k with
    | Some pv, Some cv => if json_eqb pv cv then None else Some (Diff pv cv)
    | None, Some cv => Some cv
    | Some _, None => Some JNull
    | None, None => None
    end.
Proof.
  unfold Diff. simpl. rewrite lookup_merge, lookup_fmap.
  destruct (mp !! k), (mc !! k); reflexivity.
Qed.

(** A null-free document applied as a patch to a base without fields comes
    out as it is. *)
Lemma Apply_fresh (c : json) :
  null_free c = true → ∀ base, members base = ∅ → Apply base c = c.
Proof.
  unfold Apply.
  induction c as [| | | |l _|m IH] using json_ind'; try done.
  intros Hnf base Hbase. apply null_free_obj in Hnf.
  transitivity (JObj (members (Apply_patch (JObj m) base))); [done|].
  f_equal. apply map_eq. intros k. rewrite Apply_patch_obj, Hbase, lookup_empty.
  destruct (m !! k) as [v|] eqn:Hk; [|done].
  destruct (Hnf k v Hk) as [Hnull Hv].
  pose proof (IH k v Hk Hv JNull eq_refl) as HI.
  destruct v; try done; simpl in *; by rewrite HI.
Qed.

Lemma Diff_not_null (p c : json) : c ≠ JNull → Diff p c ≠ JNull.
Proof. unfold Diff. destruct c; try done. destruct p; done. Qed.

Lemma Apply_Diff_any (c : json) :
  null_free c = true → ∀ p, Apply p (Diff p c) = c.
Proof.
  induction c as [| | | |l _|mc IH] using json_ind'; try done.
  intros Hnf p.
  destruct p as [| | | | |mp]; try (apply Apply_fresh; done).
  apply null_free_obj in Hnf.
  transitivity (JObj (members (Apply_patch (Diff (JObj mp) (JObj mc)) (JObj mp))));
    [done|].
  f_equal. apply map_eq. intros k.
  change (Diff (JObj mp) (JObj mc)) with (JObj (members (Diff (JObj mp) (JObj mc)))).
  rewrite Apply_patch_obj, Diff_obj. simpl.
  destruct (mp !! k) as [pv|] eqn:Hp, (mc !! k) as [cv|] eqn:Hc; try done.
  - destruct (Hnf k cv Hc) as [Hnull Hcv].
    destruct (json_eqb pv cv) eqn:E.
    + apply json_eqb_eq in E. by subst.
    + pose proof (Diff_not_null pv cv Hnull) as Hd.
      pose proof (IH k cv Hc Hcv pv) as HI. unfold Apply in HI.
      destruct (Diff pv cv); try done; simpl in *; by rewrite HI.
  - destruct (Hnf k cv Hc) as [Hnull Hcv].
    pose proof (Apply_fresh cv Hcv JNull eq_refl) as HI. unfold Apply in HI.
    destruct cv; try done; simpl in *; by rewrite HI.
Qed.

(** C2, as far as it holds. For JSON objects [P] and [C] such that no field
    of [C], at any depth of nested objects, holds null, applying to [P] the
    diff of [P] against [C] gives [C]. *)
Theorem Apply_Diff (mp mc : gmap string json) :
  null_free (JObj mc) = true →
  Apply (JObj mp) (Diff (JObj mp) (JObj mc)) = JObj mc.
Proof. intros Hnf. by apply Apply_Diff_any. Qed.

(** Scenario B. *)
Example scenario_B_diff :
  Diff (obj [("a", JNum 1); ("b", JNum 2)]) (obj [("a", JNum 1); ("c", JNum 3)])
  = obj [("b", JNull); ("c", JNum 3)].
Proof. vm_compute. reflexivity. Qed.

Lemma Apply_Diff_witness :
  Apply (obj [("a", JNum 1); ("b", JNum 2)])
        (Diff (obj [("a", JNum 1); ("b", JNum 2)]) (obj [("a", JNum 1); ("c", JNum 3)]))
  = obj [("a", JNum 1); ("c", JNum 3)].
Proof.
  apply (Apply_Diff (list_to_map [("a", JNum 1); ("b", JNum 2)])
                    (list_to_map [("a", JNum 1); ("c", JNum 3)])).
  vm_compute. reflexivity.
Defined.

(** A nested object is diffed field by field, an array as a whole. *)
Example nested_diff :
  Diff (obj [("o", obj [("x", JNum 1); ("y", JNum 2)]); ("l", JArr [JNum 1; JNull])])
       (obj [("o", obj [("x", JNum 1); ("y", JNum 3)]); ("l", JArr [JNull; JNum 1])])
  = obj [("o", obj [("y", JNum 3)]); ("l", JArr [JNull; JNum 1])].
Proof. vm_compute. reflexivity. Qed.

(** C2, as the claim has it, fails: when the current document sets a field
    to null, the diff carries the null marker and applying it removes the
    field. *)
Lemma Apply_Diff_null_field :
  Apply (obj [("a", JNum 1)]) (Diff (obj [("a", JNum 1)]) (obj [("a", JNull)]))
  ≠ obj [("a", JNull)].
Proof.
  intros Heq.
  apply (f_equal (λ j, members j !! "a")) in Heq.
  vm_compute in Heq. discriminate Heq.
Qed.

(** * More on the reducer *)

Section ReducerErrors.
Context {Key : Type} `{Countable Key} {store : Datastore Key} {lib : MergePatchLib}.

Implicit Types (txn : @Txn Key _ _) (datastore : gmap Key bytes) (baseKey k : Key).
Implicit Types (events pre post : list Event) (actions : list ReduceAction).

(** [Reduce] ends in one of two ways: a new datastore with an outcome list
    and no error, or the datastore it was given with an error and no
    outcome list. This holds whatever fails: opening the transaction, an
    event, or the commit. *)
Theorem Reduce_all_or_nothing events datastore baseKey :
  (∃ datastore' actions,
     Reduce events datastore baseKey = (datastore', (Some actions, None))) ∨
  (∃ err, Reduce events datastore baseKey = (datastore, (None, Some err))).
Proof.
  unfold Reduce.
  destruct (NewTransaction datastore false) as [txn0|e0]; [|right; by exists e0].
  destruct (reduceLoop _ _ _ _ _) as [[txn actions]|e1]; [|right; by exists e1].
  destruct (txnCommit txn datastore) as [d|e2]; [left; by exists d, actions|].
  right. by exists e2.
Qed.

(** When the store refuses to open a transaction, [Reduce] returns the
    store's error as it is and looks at no event. *)
Theorem Reduce_open_error events datastore baseKey err :
  fault OpNewTransaction datastore = Some err →
  Reduce events datastore baseKey = (datastore, (None, Some err)).
Proof. intros Hf. unfold Reduce, NewTransaction, guarded. by rewrite Hf. Qed.

(** When every event applies but the store refuses the commit, [Reduce]
    returns the store's error as it is, drops the outcome list it has built
    and leaves the datastore as it was. *)
Theorem Reduce_commit_error events datastore baseKey txn0 txn actions err :
  NewTransaction datastore false = Ok txn0 →
  reduceLoop txn0 baseKey 0 events (replicate (length events) zeroReduceAction)
    = Ok (txn, actions) →
  fault OpCommit (txnView txn) = Some err →
  Reduce events datastore baseKey = (datastore, (None, Some err)).
Proof.
  intros Hnew Hloop Hf. unfold Reduce. rewrite Hnew, Hloop.
  unfold txnCommit, guarded. by rewrite Hf.
Qed.

(** An event whose operation type is none of create, save and delete makes
    the call fail with [errUnknownOperation]; nothing is asked of the store
    for it and the datastore is left as it was. *)
Theorem Reduce_unknown_operation datastore baseKey pre je post txn0 txn actions :
  NewTransaction datastore false = Ok txn0 →
  reduceLoop txn0 baseKey 0 pre
    (replicate (length (pre ++ EvPatch je :: post)) zeroReduceAction)
    = Ok (txn, actions) →
  op_Type (Patch je) ≠ operationType.create →
  op_Type (Patch je) ≠ operationType.save →
  op_Type (Patch je) ≠ operationType.delete →
  Reduce (pre ++ EvPatch je :: post) datastore baseKey
  = (datastore, (None, Some errUnknownOperation)).
Proof.
  intros Hnew Hpre Hc Hs Hd.
  eapply Reduce_stops_at_failure; [done..|].
  unfold reduceEvent. apply Z.eqb_neq in Hc, Hs, Hd. by rewrite Hc, Hs, Hd.
Qed.

(** An event that is not a [patchEvent] makes the call fail with the
    "event unrecognized" error, whatever was applied before it. *)
Theorem Reduce_unrecognized_event datastore baseKey pre post txn0 txn actions :
  NewTransaction datastore false = Ok txn0 →
  reduceLoop txn0 baseKey 0 pre
    (replicate (length (pre ++ EvOther :: post)) zeroReduceAction)
    = Ok (txn, actions) →
  Reduce (pre ++ EvOther :: post) datastore baseKey
  = (datastore, (None, Some (Errorf "event unrecognized for jsonpatcher eventcodec"))).
Proof. intros Hnew Hpre. by eapply Reduce_stops_at_failure. Qed.

(** On a Create event, an error of the store's existence check is returned
    as it is. *)
Theorem Reduce_create_has_error datastore baseKey pre je post txn0 txn actions err :
  NewTransaction datastore false = Ok txn0 →
  reduceLoop txn0 baseKey 0 pre
    (replicate (length (pre ++ EvPatch je :: post)) zeroReduceAction)
    = Ok (txn, actions) →
  op_Type (Patch je) = operationType.create →
  fault (OpHas (eventKey baseKey je)) (txnView txn) = Some err →
  Reduce (pre ++ EvPatch je :: post) datastore baseKey = (datastore, (None, Some err)).
Proof.
  intros Hnew Hpre Hty Hf.
  eapply Reduce_stops_at_failure; [done..|].
  unfold reduceEvent, txnHas, guarded. by rewrite Hty, Hf.
Qed.

(** On a Create event for an absent key, a write the store refuses is
    reported as a fresh error that carries the store's message behind the
    prefix "error when reducing create event: "; the store's own error
    value is not returned. *)
Theorem Reduce_create_put_error datastore baseKey pre je post txn0 txn actions err :
  NewTransaction datastore false = Ok txn0 →
  reduceLoop txn0 baseKey 0 pre
    (replicate (length (pre ++ EvPatch je :: post)) zeroReduceAction)
    = Ok (txn, actions) →
  op_Type (Patch je) = operationType.create →
  fault (OpHas (eventKey baseKey je)) (txnView txn) = None →
  txnView txn !! eventKey baseKey je = None →
  fault (OpPut (eventKey baseKey je) (op_JSONPatch (Patch je))) (txnView txn) = Some err →
  Reduce (pre ++ EvPatch je :: post) datastore baseKey
  = (datastore,
     (None, Some (Errorf ("error when reducing create event: " +:+ error_text err)))).
Proof.
  intros Hnew Hpre Hty Hhas Habsent Hf.
  eapply Reduce_stops_at_failure; [done..|].
  unfold reduceEvent, txnHas, txnPut, guarded. rewrite Hty, Hhas, Habsent, Hf.
  reflexivity.
Qed.

(** On a Save event, a read error of the store that is, or wraps,
    [ErrNotFound] becomes [errSavingNonExistentInstance]; any other read
    error is returned as it is. *)
Theorem Reduce_save_get_error datastore baseKey pre je post txn0 txn actions err :
  NewTransaction datastore false = Ok txn0 →
  reduceLoop txn0 baseKey 0 pre
    (replicate (length (pre ++ EvPatch je :: post)) zeroReduceAction)
    = Ok (txn, actions) →
  op_Type (Patch je) = operationType.save →
  fault (OpGet (eventKey baseKey je)) (txnView txn) = Some err →
  Reduce (pre ++ EvPatch je :: post) datastore baseKey
  = (datastore,
     (None, Some (if is_ErrNotFound err then errSavingNonExistentInstance else err))).
Proof.
  intros Hnew Hpre Hty Hf.
  eapply Reduce_stops_at_failure; [done..|].
  unfold reduceEvent, txnGet, guarded. rewrite Hty, Hf. simpl.
  by destruct (is_ErrNotFound err).
Qed.

(** On a Save event for a present key, a patch the library cannot apply is
    reported as a fresh error that carries the library's message behind the
    prefix "error when reducing save event: ", and nothing is written. *)
Theorem Reduce_save_patch_error datastore baseKey pre je post txn0 txn actions value err :
  NewTransaction datastore false = Ok txn0 →
  reduceLoop txn0 baseKey 0 pre
    (replicate (length (pre ++ EvPatch je :: post)) zeroReduceAction)
    = Ok (txn, actions) →
  op_Type (Patch je) = operationType.save →
  fault (OpGet (eventKey baseKey je)) (txnView txn) = None →
  txnView txn !! eventKey baseKey je = Some value →
  MergePatch value (op_JSONPatch (Patch je)) = Err err →
  Reduce (pre ++ EvPatch je :: post) datastore baseKey
  = (datastore,
     (None, Some (Errorf ("error when reducing save event: " +:+ error_text err)))).
Proof.
  intros Hnew Hpre Hty Hget Hk Hpatch.
  eapply Reduce_stops_at_failure; [done..|].
  unfold reduceEvent, txnGet, guarded. by rewrite Hty, Hget, Hk, Hpatch.
Qed.

(** On a Save event, a write the store refuses is returned as the store's
    own error, unlike on a Create event. *)
Theorem Reduce_save_put_error datastore baseKey pre je post txn0 txn actions
    value patchedValue err :
  NewTransaction datastore false = Ok txn0 →
  reduceLoop txn0 baseKey 0 pre
    (replicate (length (pre ++ EvPatch je :: post)) zeroReduceAction)
    = Ok (txn, actions) →
  op_Type (Patch je) = operationType.save →
  fault (OpGet (eventKey baseKey je)) (txnView txn) = None →
  txnView txn !! eventKey baseKey je = Some value →
  MergePatch value (op_JSONPatch (Patch je)) = Ok patchedValue →
  fault (OpPut (eventKey baseKey je) patchedValue) (txnView txn) = Some err →
  Reduce (pre ++ EvPatch je :: post) datastore baseKey = (datastore, (None, Some err)).
Proof.
  intros Hnew Hpre Hty Hget Hk Hpatch Hf.
  eapply Reduce_stops_at_failure; [done..|].
  unfold reduceEvent, txnGet, txnPut, guarded. by rewrite Hty, Hget, Hk, Hpatch, Hf.
Qed.

(** On a Delete event, a delete the store refuses is returned as the
    store's own error. *)
Theorem Reduce_delete_error datastore baseKey pre je post txn0 txn actions err :
  NewTransaction datastore false = Ok txn0 →
  reduceLoop txn0 baseKey 0 pre
    (replicate (length (pre ++ EvPatch je :: post)) zeroReduceAction)
    = Ok (txn, actions) →
  op_Type (Patch je) = operationType.delete →
  fault (OpDelete (eventKey baseKey je)) (txnView txn) = Some err →
  Reduce (pre ++ EvPatch je :: post) datastore baseKey = (datastore, (None, Some err)).
Proof.
  intros Hnew Hpre Hty Hf.
  eapply Reduce_stops_at_failure; [done..|].
  unfold reduceEvent, txnDelete, guarded. by rewrite Hty, Hf.
Qed.

End ReducerErrors.

Section ReducerStructure.
Context {Key : Type} `{Countable Key} {store : Datastore Key} {lib : MergePatchLib}.

Implicit Types (txn : @Txn Key _ _) (datastore : gmap Key bytes) (baseKey k : Key).
Implicit Types (events pre post : list Event) (actions : list ReduceAction).

(** What an applied event found and what it left, by operation type. *)
Lemma reduceEvent_applied txn baseKey je txn' a :
  reduceEvent txn baseKey (EvPatch je) = Ok (txn', a) →
  (op_Type (Patch je) = operationType.create ∧
   txnView txn !! eventKey baseKey je = None ∧
   txnView txn' = <[eventKey baseKey je := op_JSONPatch (Patch je)]> (txnView txn)) ∨
  (op_Type (Patch je) = operationType.save ∧
   ∃ value patchedValue,
     txnView txn !! eventKey baseKey je = Some value ∧
     MergePatch value (op_JSONPatch (Patch je)) = Ok patchedValue ∧
     txnView txn' = <[eventKey baseKey je := patchedValue]> (txnView txn)) ∨
  (op_Type (Patch je) = operationType.delete ∧
   txnView txn' = delete (eventKey baseKey je) (txnView txn)).
Proof.
  unfold reduceEvent.
  destruct (op_Type (Patch je) =? operationType.create) eqn:Hc;
    [|destruct (op_Type (Patch je) =? operationType.save) eqn:Hs;
      [|destruct (op_Type (Patch je) =? operationType.delete) eqn:Hd; [|done]]].
  - apply Z.eqb_eq in Hc.
    destruct (txnHas txn (eventKey baseKey je)) as [exist|e] eqn:Hhas; [|done].
    apply guarded_Ok in Hhas as [_ [= <-]]. simpl.
    case_bool_decide as Hk; [done|].
    destruct (txnPut txn _ _) as [t|e] eqn:Hput; [|done].
    intros [= <- _]. left. split; [done|]. split.
    + by apply eq_None_not_Some.
    + by eapply txnPut_Ok.
  - apply Z.eqb_eq in Hs.
    destruct (txnGet txn (eventKey baseKey je)) as [value|e] eqn:Hget;
      [|by destruct (is_ErrNotFound e)].
    apply guarded_Ok in Hget as [_ Hget].
    destruct (txnView txn !! eventKey baseKey je) as [v|] eqn:Hk; [|done].
    injection Hget as ->.
    destruct (MergePatch value _) as [patched|e] eqn:Hpatch; [|done].
    destruct (txnPut txn _ patched) as [t|e] eqn:Hput; [|done].
    simpl. intros [= <- _]. right. left. split; [done|].
    exists value, patched. split; [done|]. split; [done|]. by eapply txnPut_Ok.
  - apply Z.eqb_eq in Hd.
    destruct (txnDelete txn (eventKey baseKey je)) as [t|e] eqn:Hdel; [|done].
    simpl. intros [= <- _]. right. right. split; [done|]. by eapply txnDelete_Ok.
Qed.

(** An applied event changes no key but its own. *)
Lemma reduceEvent_frame txn baseKey je txn' a k :
  reduceEvent txn baseKey (EvPatch je) = Ok (txn', a) →
  k ≠ eventKey baseKey je →
  txnView txn' !! k = txnView txn !! k.
Proof.
  intros Hev Hk.
  destruct (reduceEvent_applied _ _ _ _ _ Hev)
    as [(_ & _ & ->)|[(_ & v & p & _ & _ & ->)|(_ & ->)]].
  - by rewrite lookup_insert_ne.
  - by rewrite lookup_insert_ne.
  - by rewrite lookup_delete_ne.
Qed.

Lemma reduceLoop_frame events txn baseKey i actions txn' actions' k :
  reduceLoop txn baseKey i events actions = Ok (txn', actions') →
  (∀ je, EvPatch je ∈ events → eventKey baseKey je ≠ k) →
  txnView txn' !! k = txnView txn !! k.
Proof.
  revert txn i actions. induction events as [|e events IH]; intros txn i actions; simpl.
  - by intros [= <- _].
  - destruct (reduceEvent txn baseKey e) as [[txn1 a]|err] eqn:He; simpl; [|done].
    intros Hloop Hkeys.
    rewrite (IH _ _ _ Hloop)
      by (intros je Hje; by apply Hkeys, list_elem_of_further).
    destruct e as [je|]; [|done].
    eapply reduceEvent_frame; [done|].
    intros ->. apply (Hkeys je); [|done]. apply list_elem_of_here.
Qed.

(** What [Reduce] did when it returned no error. *)
Lemma Reduce_Ok_inv events datastore baseKey datastore' actions :
  Reduce events datastore baseKey = (datastore', (Some actions, None)) →
  ∃ txn0 txn,
    NewTransaction datastore false = Ok txn0 ∧
    reduceLoop txn0 baseKey 0 events (replicate (length events) zeroReduceAction)
      = Ok (txn, actions) ∧
    txnCommit txn datastore = Ok datastore' ∧
    datastore' = txnView txn.
Proof.
  unfold Reduce.
  destruct (NewTransaction datastore false) as [txn0|e0] eqn:Hnew; [|done].
  destruct (reduceLoop _ _ _ _ _) as [[txn acts]|e1] eqn:Hloop; [|done].
  destruct (txnCommit txn datastore) as [d|e2] eqn:Hcommit; [|done].
  intros [= <- <-]. exists txn0, txn. repeat split; try done.
  by eapply Reduce_commit.
Qed.





Lemma Reduce_cases events datastore baseKey :
  (∃ datastore' actions,
     Reduce events datastore baseKey = (datastore', (Some actions, None))) ∨
  (∃ err, Reduce events datastore baseKey = (datastore, (None, Some err))).
Proof.
  unfold Reduce.
  destruct (NewTransaction datastore false) as [txn0|e0]; [|right; by exists e0].
  destruct (reduceLoop _ _ _ _ _) as [[txn actions]|e1]; [|right; by exists e1].
  destruct (txnCommit txn datastore) as [d|e2]; [left; by exists d, actions|].
  right. by exists e2.
Qed.

Lemma reduceLoop_cons_Ok txn baseKey i e events actions txn' actions' :
  reduceLoop txn baseKey i (e :: events) actions = Ok (txn', actions') →
  ∃ txn1 a,
    reduceEvent txn baseKey e = Ok (txn1, a) ∧
    reduceLoop txn1 baseKey (S i) events (<[i := a]> actions) = Ok (txn', actions').
Proof.
  cbn [reduceLoop].
  destruct (reduceEvent txn baseKey e) as [[txn1 a]|err]; [|done].
  intros Hloop. by exists txn1, a.
Qed.

(** When the events before an event and the event itself apply, the
    contents the transaction sees right after it. *)
Lemma Reduce_Ok_split pre e post datastore baseKey datastore' actions :
  Reduce (pre ++ e :: post) datastore baseKey = (datastore', (Some actions, None)) →
  ∃ txn1 txn2 txn3 a j acts2 acts3,
    reduceEvent txn1 baseKey e = Ok (txn2, a) ∧
    reduceLoop txn2 baseKey j post acts2 = Ok (txn3, acts3) ∧
    datastore' = txnView txn3.
Proof.
  intros (txn0 & txn3 & Hnew & Hloop & _ & ->)%Reduce_Ok_inv.
  rewrite reduceLoop_app in Hloop.
  destruct (reduceLoop txn0 baseKey 0 pre _) as [[txn1 acts1]|e1]; [|done].
  simpl in Hloop.
  destruct (reduceEvent txn1 baseKey e) as [[txn2 a]|e2] eqn:He; [|done].
  simpl in Hloop.
  by eexists txn1, txn2, txn3, a, _, _, actions.
Qed.

(** A call that returns no error changes no key but the keys of its
    events: every other key of the datastore keeps its value, or its
    absence. *)
Theorem Reduce_frame events datastore baseKey datastore' actions k :
  Reduce events datastore baseKey = (datastore', (Some actions, None)) →
  (∀ je, EvPatch je ∈ events → eventKey baseKey je ≠ k) →
  datastore' !! k = datastore !! k.
Proof.
  intros (txn0 & txn & Hnew & Hloop & _ & ->)%Reduce_Ok_inv Hkeys.
  rewrite (reduceLoop_frame _ _ _ _ _ _ _ _ Hloop Hkeys).
  apply NewTransaction_Ok in Hnew as [_ ->]. done.
Qed.

(** After a call that returns no error, the value under a key is decided
    by the last event on that key: a Create leaves its payload, a Delete
    leaves the key absent, a Save leaves a value the patch library made
    from its payload. *)
Theorem Reduce_last_event pre je post datastore baseKey datastore' actions :
  Reduce (pre ++ EvPatch je :: post) datastore baseKey
    = (datastore', (Some actions, None)) →
  (∀ je', EvPatch je' ∈ post → eventKey baseKey je' ≠ eventKey baseKey je) →
  (op_Type (Patch je) = operationType.create →
   datastore' !! eventKey baseKey je = Some (op_JSONPatch (Patch je))) ∧
  (op_Type (Patch je) = operationType.delete →
   datastore' !! eventKey baseKey je = None) ∧
  (op_Type (Patch je) = operationType.save →
   ∃ value patchedValue,
     MergePatch value (op_JSONPatch (Patch je)) = Ok patchedValue ∧
     datastore' !! eventKey baseKey je = Some patchedValue).
Proof.
  intros Hred Hpost.
  destruct (Reduce_Ok_split _ _ _ _ _ _ _ Hred)
    as (txn1 & txn2 & txn3 & a & j & acts2 & acts3 & He & Hrest & ->).
  rewrite (reduceLoop_frame _ _ _ _ _ _ _ _ Hrest Hpost).
  destruct (reduceEvent_applied _ _ _ _ _ He)
    as [(Hty & _ & ->)|[(Hty & v & p & _ & Hpatch & ->)|(Hty & ->)]];
    rewrite Hty; repeat split; try done.
  - intros _. apply lookup_insert_eq.
  - intros _. exists v, p. split; [done|]. apply lookup_insert_eq.
  - intros _. apply lookup_delete_eq.
Qed.

(** A Create on a key that an earlier Create or Save of the same call has
    written, with no event on that key in between, is never applied: the
    call returns an error and leaves the datastore as it was. *)
Theorem Reduce_no_create_over_written pre je1 mid je2 post datastore baseKey :
  op_Type (Patch je1) = operationType.create ∨
  op_Type (Patch je1) = operationType.save →
  op_Type (Patch je2) = operationType.create →
  eventKey baseKey je2 = eventKey baseKey je1 →
  (∀ je, EvPatch je ∈ mid → eventKey baseKey je ≠ eventKey baseKey je1) →
  ∃ err,
    Reduce (pre ++ EvPatch je1 :: mid ++ EvPatch je2 :: post) datastore baseKey
    = (datastore, (None, Some err)).
Proof.
  intros Hty1 Hty2 Hkey Hmid.
  destruct (Reduce_cases (pre ++ EvPatch je1 :: mid ++ EvPatch je2 :: post)
              datastore baseKey) as [(d & acts & Hred)|Herr]; [exfalso|done].
  destruct (Reduce_Ok_split _ _ _ _ _ _ _ Hred)
    as (txn1 & txn2 & txn3 & a & j & acts2 & acts3 & He1 & Hrest & _).
  rewrite reduceLoop_app in Hrest.
  destruct (reduceLoop txn2 baseKey j mid acts2) as [[txn4 acts4]|e] eqn:Hloop; [|done].
  apply reduceLoop_cons_Ok in Hrest as (txn5 & a5 & He2 & _).
  pose proof (reduceLoop_frame _ _ _ _ _ _ _ _ Hloop Hmid) as Hsame.
  assert (is_Some (txnView txn2 !! eventKey baseKey je1)) as [v Hv].
  { destruct (reduceEvent_applied _ _ _ _ _ He1)
      as [(_ & _ & ->)|[(_ & ? & ? & _ & _ & ->)|(Hd & _)]].
    - rewrite lookup_insert_eq. by eexists.
    - rewrite lookup_insert_eq. by eexists.
    - destruct Hty1 as [Hc|Hs]; rewrite Hd in *; done. }
  destruct (reduceEvent_applied _ _ _ _ _ He2)
    as [(_ & Habsent & _)|[(Hs & _)|(Hd & _)]].
  - rewrite Hkey, Hsame, Hv in Habsent. done.
  - rewrite Hty2 in Hs. done.
  - rewrite Hty2 in Hd. done.
Qed.

(** A Save on a key that an earlier Delete of the same call has removed,
    with no event on that key in between, is never applied: the call
    returns an error and leaves the datastore as it was. *)
Theorem Reduce_no_save_after_delete pre je1 mid je2 post datastore baseKey :
  op_Type (Patch je1) = operationType.delete →
  op_Type (Patch je2) = operationType.save →
  eventKey baseKey je2 = eventKey baseKey je1 →
  (∀ je, EvPatch je ∈ mid → eventKey baseKey je ≠ eventKey baseKey je1) →
  ∃ err,
    Reduce (pre ++ EvPatch je1 :: mid ++ EvPatch je2 :: post) datastore baseKey
    = (datastore, (None, Some err)).
Proof.
  intros Hty1 Hty2 Hkey Hmid.
  destruct (Reduce_cases (pre ++ EvPatch je1 :: mid ++ EvPatch je2 :: post)
              datastore baseKey) as [(d & acts & Hred)|Herr]; [exfalso|done].
  destruct (Reduce_Ok_split _ _ _ _ _ _ _ Hred)
    as (txn1 & txn2 & txn3 & a & j & acts2 & acts3 & He1 & Hrest & _).
  rewrite reduceLoop_app in Hrest.
  destruct (reduceLoop txn2 baseKey j mid acts2) as [[txn4 acts4]|e] eqn:Hloop; [|done].
  apply reduceLoop_cons_Ok in Hrest as (txn5 & a5 & He2 & _).
  pose proof (reduceLoop_frame _ _ _ _ _ _ _ _ Hloop Hmid) as Hsame.
  assert (txnView txn2 !! eventKey baseKey je1 = None) as Hgone.
  { destruct (reduceEvent_applied _ _ _ _ _ He1)
      as [(Hc & _)|[(Hs & _)|(_ & ->)]].
    - rewrite Hty1 in Hc. done.
    - rewrite Hty1 in Hs. done.
    - apply lookup_delete_eq. }
  destruct (reduceEvent_applied _ _ _ _ _ He2)
    as [(Hc & _)|[(_ & v & p & Hpresent & _)|(Hd & _)]].
  - rewrite Hty2 in Hc. done.
  - rewrite Hkey, Hsame, Hgone in Hpresent. done.
  - rewrite Hty2 in Hd. done.
Qed.


End ReducerStructure.

(** * More concrete calls of the reducer *)

Lemma Reduce_open_error_witness :
  Reduce (store := storeFailing failsOpen) (lib := wholeDocument) [createA; EvOther] ∅ "model"
  = (∅, (None, Some (External "store: i/o error" None))).
Proof.
  exact (Reduce_open_error (store := storeFailing failsOpen) (lib := wholeDocument)
           [createA; EvOther] ∅ "model" _ eq_refl).
Defined.

Lemma Reduce_commit_error_witness :
  Reduce (store := storeFailing failsCommit) (lib := wholeDocument) [createA] ∅ "model"
  = (∅, (None, Some (External "store: i/o error" None))).
Proof.
  apply (Reduce_commit_error (store := storeFailing failsCommit) (lib := wholeDocument)
           [createA] ∅ "model" emptyTxn txnCreatedA
           [{| ra_Type := core.Create; ra_Model := "user"; ra_EntityID := "A" |}]);
    vm_compute; reflexivity.
Defined.

Lemma Reduce_unknown_operation_witness :
  Reduce (store := memStore) (lib := wholeDocument)
    [createA; EvPatch (jeA 7 "")] ∅ "model"
  = (∅, (None, Some errUnknownOperation)).
Proof.
  apply (Reduce_unknown_operation (store := memStore) (lib := wholeDocument)
           ∅ "model" [createA] (jeA 7 "") [] emptyTxn txnCreatedA
           [{| ra_Type := core.Create; ra_Model := "user"; ra_EntityID := "A" |};
            zeroReduceAction]);
    first [discriminate | vm_compute; reflexivity].
Defined.

Lemma Reduce_unrecognized_event_witness :
  Reduce (store := memStore) (lib := wholeDocument) [createA; EvOther; saveA] ∅ "model"
  = (∅, (None, Some (Errorf "event unrecognized for jsonpatcher eventcodec"))).
Proof.
  apply (Reduce_unrecognized_event (store := memStore) (lib := wholeDocument)
           ∅ "model" [createA] [saveA] emptyTxn txnCreatedA
           [{| ra_Type := core.Create; ra_Model := "user"; ra_EntityID := "A" |};
            zeroReduceAction; zeroReduceAction]);
    vm_compute; reflexivity.
Defined.

Lemma Reduce_create_has_error_witness :
  Reduce (store := storeFailing failsHas) (lib := wholeDocument) [createA] ∅ "model"
  = (∅, (None, Some (External "store: i/o error" None))).
Proof.
  apply (Reduce_create_has_error (store := storeFailing failsHas) (lib := wholeDocument)
           ∅ "model" [] (jeA operationType.create (jsonField "x" "1")) []
           emptyTxn emptyTxn [zeroReduceAction]);
    vm_compute; reflexivity.
Defined.

Lemma Reduce_create_put_error_witness :
  Reduce (store := storeFailing failsPut) (lib := wholeDocument) [createA] ∅ "model"
  = (∅, (None, Some (Errorf "error when reducing create event: store: i/o error"))).
Proof.
  apply (Reduce_create_put_error (store := storeFailing failsPut) (lib := wholeDocument)
           ∅ "model" [] (jeA operationType.create (jsonField "x" "1")) []
           emptyTxn emptyTxn [zeroReduceAction] (External "store: i/o error" None));
    vm_compute; reflexivity.
Defined.

Lemma Reduce_save_get_error_witness :
  Reduce (store := storeFailing failsGet) (lib := wholeDocument) [saveA] withA "model"
  = (withA, (None, Some (External "store: i/o error" None)))
  ∧ Reduce (store := storeHidingKeys) (lib := wholeDocument) [saveA] withA "model"
    = (withA, (None, Some errSavingNonExistentInstance)).
Proof.
  split.
  - apply (Reduce_save_get_error (store := storeFailing failsGet) (lib := wholeDocument)
             withA "model" [] (jeA operationType.save (jsonField "x" "2")) []
             txnWithA txnWithA [zeroReduceAction] (External "store: i/o error" None));
      vm_compute; reflexivity.
  - apply (Reduce_save_get_error (store := storeHidingKeys) (lib := wholeDocument)
             withA "model" [] (jeA operationType.save (jsonField "x" "2")) []
             txnWithA txnWithA [zeroReduceAction]
             (External "store: lookup failed" (Some ErrNotFound)));
      vm_compute; reflexivity.
Defined.

Lemma Reduce_save_patch_error_witness :
  Reduce (store := memStore) (lib := wholeDocument) [saveEmpty] withA "model"
  = (withA, (None, Some (Errorf "error when reducing save event: Invalid JSON Patch"))).
Proof.
  apply (Reduce_save_patch_error (store := memStore) (lib := wholeDocument)
           withA "model" [] (jeA operationType.save "") []
           txnWithA txnWithA [zeroReduceAction] (textBytes (jsonField "x" "1"))
           (External "Invalid JSON Patch" None));
    vm_compute; reflexivity.
Defined.

Lemma Reduce_save_put_error_witness :
  Reduce (store := storeFailing failsPut) (lib := wholeDocument) [saveA] withA "model"
  = (withA, (None, Some (External "store: i/o error" None))).
Proof.
  apply (Reduce_save_put_error (store := storeFailing failsPut) (lib := wholeDocument)
           withA "model" [] (jeA operationType.save (jsonField "x" "2")) []
           txnWithA txnWithA [zeroReduceAction]
           (textBytes (jsonField "x" "1")) (textBytes (jsonField "x" "2")));
    vm_compute; reflexivity.
Defined.

Lemma Reduce_delete_error_witness :
  Reduce (store := storeFailing failsDelete) (lib := wholeDocument) [deleteA] withA "model"
  = (withA, (None, Some (External "store: i/o error" None))).
Proof.
  apply (Reduce_delete_error (store := storeFailing failsDelete) (lib := wholeDocument)
           withA "model" [] (jeA operationType.delete "") []
           txnWithA txnWithA [zeroReduceAction]);
    vm_compute; reflexivity.
Defined.

Lemma Reduce_frame_witness :
  (<["model/user/A" := textBytes (jsonField "x" "1")]> withB) !! "model/user/B"
  = withB !! "model/user/B".
Proof.
  apply (Reduce_frame (store := memStore) (lib := wholeDocument) [createA] withB "model" _
           [{| ra_Type := core.Create; ra_Model := "user"; ra_EntityID := "A" |}]).
  - vm_compute. reflexivity.
  - intros je Hje%list_elem_of_singleton. vm_compute in Hje. injection Hje as ->.
    vm_compute. discriminate.
Defined.

Lemma Reduce_last_event_witness :
  withB !! "model/user/A" = None.
Proof.
  apply (Reduce_last_event (store := memStore) (lib := wholeDocument)
           [createA] (jeA operationType.delete "") [createB] ∅ "model" withB
           [{| ra_Type := core.Create; ra_Model := "user"; ra_EntityID := "A" |};
            {| ra_Type := core.Delete; ra_Model := "user"; ra_EntityID := "A" |};
            {| ra_Type := core.Create; ra_Model := "user"; ra_EntityID := "B" |}]).
  - vm_compute. reflexivity.
  - intros je Hje%list_elem_of_singleton. vm_compute in Hje. injection Hje as ->.
    vm_compute. discriminate.
  - reflexivity.
Defined.

Lemma Reduce_no_create_over_written_witness :
  ∃ err,
    Reduce (store := memStore) (lib := wholeDocument) [createA; createB; createA'] ∅ "model"
    = (∅, (None, Some err)).
Proof.
  apply (Reduce_no_create_over_written (store := memStore) (lib := wholeDocument)
           [] (jeA operationType.create (jsonField "x" "1")) [createB]
           (jeA operationType.create (jsonField "x" "3")) [] ∅ "model").
  - by left.
  - reflexivity.
  - reflexivity.
  - intros je Hje%list_elem_of_singleton. vm_compute in Hje. injection Hje as ->.
    vm_compute. discriminate.
Defined.

Lemma Reduce_no_save_after_delete_witness :
  ∃ err,
    Reduce (store := memStore) (lib := wholeDocument) [deleteA; createB; saveA] withA "model"
    = (withA, (None, Some err)).
Proof.
  apply (Reduce_no_save_after_delete (store := memStore) (lib := wholeDocument)
           [] (jeA operationType.delete "") [createB]
           (jeA operationType.save (jsonField "x" "2")) [] withA "model").
  - reflexivity.
  - reflexivity.
  - reflexivity.
  - intros je Hje%list_elem_of_singleton. vm_compute in Hje. injection Hje as ->.
    vm_compute. discriminate.
Defined.


(** * More on the encoder *)

Section EncoderStructure.
Context {V Node : Type} {enc : EncoderLib V Node} {lib : MergePatchLib}.

Implicit Types (jp : jsonPatcher) (a : Action V) (actions pre post : list (Action V)).
Implicit Types (ops : list operation).

(** An operation carries the kind and the entity of its Action. *)
Lemma translate_Ok jp a op :
  translate jp a = Returns (Ok op) →
  op_EntityID op = act_EntityID a ∧
  (act_Type a = core.Create ∧ op_Type op = operationType.create ∨
   act_Type a = core.Save ∧ op_Type op = operationType.save ∨
   act_Type a = core.Delete ∧ op_Type op = operationType.delete).
Proof.
  unfold translate.
  destruct (act_Type a =? core.Create) eqn:Hc;
    [|destruct (act_Type a =? core.Save) eqn:Hs;
      [|destruct (act_Type a =? core.Delete) eqn:Hd; [|done]]].
  - apply Z.eqb_eq in Hc. unfold createEvent.
    destruct (jsonMode jp).
    + destruct (act_Current a) as [[s|]| |]; try done. intros [= <-]. auto.
    + destruct (json_Marshal (act_Current a)); try done. intros [= <-]. auto.
  - apply Z.eqb_eq in Hs. unfold saveEvent.
    destruct (saveEvent_inputs _ _ _) as [[[prev curr]|]|]; try done.
    destruct (CreateMergePatch prev curr); try done. simpl. intros [= <-]. auto.
  - apply Z.eqb_eq in Hd. unfold deleteEvent. intros [= <-]. auto.
Qed.

(** When every Action translates, the loop fills the slots from [i] on and
    leaves the slots before [i] alone. *)
Lemma createLoop_translated jp actions ops i (revents : list patchEvent)
    (events : list Event) :
  Forall2 (λ a op, translate jp a = Returns (Ok op)) actions ops →
  length revents = (i + length actions)%nat →
  length events = (i + length actions)%nat →
  createLoop jp i actions revents events
  = Returns (Ok (take i revents ++ stampedFrom i actions ops,
                 take i events ++ (EvPatch <$> stampedFrom i actions ops))).
Proof.
  intros Hall. revert i revents events.
  induction Hall as [|a op actions ops Ha _ IH]; intros i revents events Hr He.
  - simpl in *. rewrite !app_nil_r, !take_ge by lia. done.
  - cbn [createLoop stampedFrom]. rewrite Ha.
    cbn [length] in Hr, He.
    rewrite IH by (rewrite length_insert; lia).
    rewrite (take_S_r _ _ (stamped i a op)) by (apply list_lookup_insert_eq; lia).
    rewrite (take_S_r _ _ (EvPatch (stamped i a op)))
      by (apply list_lookup_insert_eq; lia).
    rewrite !take_insert_ge by lia.
    by rewrite <- !app_assoc.
Qed.

Lemma createLoop_Ok_inv jp actions i (revents : list patchEvent) (events : list Event) r :
  createLoop jp i actions revents events = Returns (Ok r) →
  ∃ ops, Forall2 (λ a op, translate jp a = Returns (Ok op)) actions ops.
Proof.
  revert i revents events.
  induction actions as [|a actions IH]; intros i revents events; simpl.
  - intros _. exists []. constructor.
  - destruct (translate jp a) as [[op|err]|p] eqn:Ha; try done.
    intros (ops & Hops)%IH. exists (op :: ops). by constructor.
Qed.

(** When every Action translates, [Create] wraps one [patchEvent] per
    Action, in the order of the Actions, the i-th holding the i-th reading
    of the clock, the entity and model of the i-th Action and its
    operation; it returns these same events with the node, or the error of
    the wrapper alone. *)
Theorem Create_translated jp actions ops :
  Forall2 (λ a op, translate jp a = Returns (Ok op)) actions ops →
  Create jp actions
  = match WrapObject {| Patches := stampedFrom 0 actions ops |} with
    | Ok n => Returns (Some (EvPatch <$> stampedFrom 0 actions ops), Some n, None)
    | Err err => Returns (None, None, Some err)
    end.
Proof.
  intros Hall. unfold Create.
  rewrite (createLoop_translated jp actions ops) by (by rewrite ?length_replicate).
  reflexivity.
Qed.

(** The events [Create] returns are events [Reduce] knows: each is a
    [patchEvent] of a known operation type, and the outcome record it
    stands for repeats the kind, the model and the entity of the Action it
    was made from. *)
Theorem Create_outcomes jp actions events n :
  Create jp actions = Returns (Some events, Some n, None) →
  Forall2 (λ a e, outcomeOf e = Some (actionRecord a)) actions events.
Proof.
  unfold Create.
  destruct (createLoop jp 0 actions _ _) as [[[revents' events']|err]|p] eqn:Hloop;
    try done.
  destruct (createLoop_Ok_inv _ _ _ _ _ _ Hloop) as (ops & Hops).
  rewrite (createLoop_translated jp actions ops) in Hloop
    by (by rewrite ?length_replicate).
  injection Hloop as <- <-.
  destruct (WrapObject _); [|done]. intros [= <- _]. simpl.
  generalize 0%nat as i. clear -Hops.
  induction Hops as [|a op actions ops Ha _ IH]; intros i; simpl; constructor.
  - destruct (translate_Ok _ _ _ Ha) as [_ Hkinds].
    unfold outcomeOf, reduceAction, actionRecord, stamped. simpl.
    destruct Hkinds as [[Hk Hop]|[[Hk Hop]|[Hk Hop]]]; rewrite Hop, Hk; reflexivity.
  - apply IH.
Qed.

(** Outside JSON mode [Create] never panics on Actions of the three known
    kinds: it returns. *)
Theorem Create_structured_returns jp actions :
  jsonMode jp = false →
  Forall (λ a, act_Type a = core.Create ∨ act_Type a = core.Save ∨
               act_Type a = core.Delete) actions →
  ∃ r, Create jp actions = Returns r.
Proof.
  intros Hmode Hkinds. unfold Create.
  assert (∀ i (revents : list patchEvent) (events : list Event),
            ∃ r, createLoop jp i actions revents events = Returns r) as Hloop.
  { induction Hkinds as [|a actions Hk _ IH]; intros i revents events; simpl.
    - by eexists.
    - assert (∃ r, translate jp a = Returns r) as [r Hr].
      { unfold translate, createEvent, saveEvent, saveEvent_inputs, deleteEvent.
        rewrite Hmode.
        destruct Hk as [-> | [-> | ->]]; simpl.
        + destruct (json_Marshal (act_Current a)); by eexists.
        + destruct (json_Marshal (act_Previous a)); simpl; [|by eexists].
          destruct (json_Marshal (act_Current a)); simpl; [|by eexists].
          destruct (CreateMergePatch _ _); by eexists.
        + by eexists. }
      rewrite Hr. destruct r as [op|err]; [apply IH | by eexists]. }
  destruct (Hloop 0%nat (replicate (length actions) zeroPatchEvent)
              (replicate (length actions) EvOther)) as [[[revents' events']|err] ->].
  - destruct (WrapObject _); by eexists.
  - by eexists.
Qed.

(** In JSON mode a Create Action whose value is not a [*string] makes
    [Create] panic on the type assertion, and one whose value is a nil
    [*string] makes it panic on the dereference, once every Action before it
    has translated. *)
Theorem Create_raw_create_panics jp pre a post :
  jsonMode jp = true →
  Forall (λ a', ∃ op, translate jp a' = Returns (Ok op)) pre →
  act_Type a = core.Create →
  (∀ s, act_Current a ≠ IStringPtr (Some s)) →
  Create jp (pre ++ a :: post)
  = Panics match act_Current a with
           | IStringPtr _ => PanicNilDereference
           | _ => PanicTypeAssertion
           end.
Proof.
  intros Hmode Hpre Hty Hcur. unfold Create.
  destruct (createLoop_prefix jp pre (a :: post) 0
              (replicate (length (pre ++ a :: post)) zeroPatchEvent)
              (replicate (length (pre ++ a :: post)) EvOther) Hpre)
    as (revents' & events' & ->).
  simpl. unfold translate, createEvent. rewrite Hty, Hmode. simpl.
  destruct (act_Current a) as [[s|]| |] eqn:Hc; try done.
  by destruct (Hcur s).
Qed.

(** In JSON mode a Save Action makes [Create] panic on a type assertion
    when its current value is not a [*string] or its previous value is not
    a [[]byte], and on the dereference when both have the right type but the
    [*string] is nil. *)
Theorem Create_raw_save_panics jp pre a post :
  jsonMode jp = true →
  Forall (λ a', ∃ op, translate jp a' = Returns (Ok op)) pre →
  act_Type a = core.Save →
  (∀ b s, ¬ (act_Previous a = IBytes b ∧ act_Current a = IStringPtr (Some s))) →
  Create jp (pre ++ a :: post)
  = Panics match act_Current a, act_Previous a with
           | IStringPtr _, IBytes _ => PanicNilDereference
           | _, _ => PanicTypeAssertion
           end.
Proof.
  intros Hmode Hpre Hty Hbad. unfold Create.
  destruct (createLoop_prefix jp pre (a :: post) 0
              (replicate (length (pre ++ a :: post)) zeroPatchEvent)
              (replicate (length (pre ++ a :: post)) EvOther) Hpre)
    as (revents' & events' & ->).
  simpl. unfold translate, saveEvent, saveEvent_inputs. rewrite Hty, Hmode. simpl.
  destruct (act_Current a) as [[s|]|cb|cv] eqn:Hc, (act_Previous a) as [pp|b|pv] eqn:Hp;
    try done.
  by destruct (Hbad b s).
Qed.

End EncoderStructure.

(** * Properties of the decoder *)

Lemma eventsLoop_spec (patches : list patchEvent) (i : nat) (res : list Event) :
  length res = (i + length patches)%nat →
  eventsLoop i patches res = take i res ++ (EvPatch <$> patches).
Proof.
  revert i res. induction patches as [|pe patches IH]; intros i res Hlen; simpl in *.
  - rewrite app_nil_r, take_ge by lia. done.
  - rewrite IH by (rewrite length_insert; lia).
    rewrite (take_S_r _ _ (EvPatch pe)) by (apply list_lookup_insert_eq; lia).
    rewrite take_insert_ge by lia. by rewrite <- app_assoc.
Qed.

(** [EventsFromBytes] returns the error of the decoder alone, or one event
    per decoded patch, in the order of the patches, each of them a
    [patchEvent]; an empty patch list gives an empty event list and no
    error. *)
Theorem EventsFromBytes_events {Node : Type} {dec : DecoderLib Node} (data : bytes) :
  EventsFromBytes data
  = match DecodeInto data with
    | Err err => (None, Some err)
    | Ok revents => (Some (EvPatch <$> Patches revents), None)
    end.
Proof.
  unfold EventsFromBytes. destruct (DecodeInto data) as [revents|err]; [|done].
  rewrite eventsLoop_spec by (by rewrite length_replicate). reflexivity.
Qed.

(** With a codec whose decoder gives back the record its wrapper was
    given, [EventsFromBytes] on the bytes of the node [Create] returned
    gives the very events [Create] returned. *)
Theorem EventsFromBytes_Create {V Node : Type} {enc : EncoderLib V Node}
    {lib : MergePatchLib} {dec : DecoderLib Node}
    (jp : jsonPatcher) (actions : list (Action V)) (events : list Event) (n : Node) :
  (∀ r n', WrapObject r = Ok n' → DecodeInto (RawData n') = Ok r) →
  Create jp actions = Returns (Some events, Some n, None) →
  EventsFromBytes (RawData n) = (Some events, None).
Proof.
  intros Hcodec. unfold Create.
  destruct (createLoop jp 0 actions _ _) as [[[revents' events']|err]|p] eqn:Hloop;
    try done.
  destruct (createLoop_Ok_inv _ _ _ _ _ _ Hloop) as (ops & Hops).
  rewrite (createLoop_translated jp actions ops) in Hloop
    by (by rewrite ?length_replicate).
  injection Hloop as <- <-.
  destruct (WrapObject _) as [n'|err] eqn:Hwrap; [|done]. intros [= <- <-].
  unfold EventsFromBytes. rewrite (Hcodec _ _ Hwrap). simpl.
  rewrite eventsLoop_spec by (by rewrite length_replicate). reflexivity.
Qed.

(** ** The small binary codec decodes what it encodes *)

Lemma wrap64_mod (z : Z) : - 2 ^ 63 ≤ z < 2 ^ 63 → wrap64 (z mod 2 ^ 64) = z.
Proof.
  intros Hz. unfold wrap64.
  rewrite Zplus_mod_idemp_l, Z.mod_small by lia. lia.
Qed.

Lemma get_put_u64 (z : Z) (b rest : bytes) :
  put_u64 z = Some b → get_u64 (b ++ rest) = Some (z, rest).
Proof.
  unfold put_u64, get_u64. case_decide as Hz; [|done]. intros [= <-].
  rewrite decide_True by (rewrite length_app; simpl; lia).
  change 8%nat with (length (BigEndian_PutUint64 (z mod 2 ^ 64))).
  rewrite take_app_length, drop_app_length.
  rewrite PutUint64_value by (apply Z.mod_pos_bound; lia).
  by rewrite wrap64_mod.
Qed.

Lemma get_put_bytes (s b rest : bytes) :
  put_bytes s = Some b → get_bytes (b ++ rest) = Some (s, rest).
Proof.
  unfold put_bytes, get_bytes. case_decide as Hs; [|done]. intros [= <-]. simpl.
  assert (N.to_nat (Byte.to_N (byte_of_Z (Z.of_nat (length s)))) = length s) as ->.
  { pose proof (byte_of_Z_value (Z.of_nat (length s))) as Hv.
    rewrite Z.mod_small in Hv by lia. lia. }
  rewrite decide_True by (rewrite length_app; lia).
  by rewrite take_app_length, drop_app_length.
Qed.

Lemma get_put_patchEvent (pe : patchEvent) (b rest : bytes) :
  put_patchEvent pe = Some b → get_patchEvent (b ++ rest) = Some (pe, rest).
Proof.
  unfold put_patchEvent, get_patchEvent.
  destruct (put_u64 (unixSec (Timestamp pe))) as [b1|] eqn:H1; [|done].
  destruct (put_u64 (nsec (Timestamp pe))) as [b2|] eqn:H2; [|done].
  destruct (put_bytes (list_byte_of_string (ID pe))) as [b3|] eqn:H3; [|done].
  destruct (put_bytes (list_byte_of_string (ModelName pe))) as [b4|] eqn:H4; [|done].
  destruct (put_u64 (op_Type (Patch pe))) as [b5|] eqn:H5; [|done].
  destruct (put_bytes (list_byte_of_string (op_EntityID (Patch pe)))) as [b6|] eqn:H6;
    [|done].
  destruct (put_bytes (op_JSONPatch (Patch pe))) as [b7|] eqn:H7; [|done].
  simpl. intros [= <-]. rewrite <- !app_assoc.
  rewrite (get_put_u64 _ _ _ H1). simpl.
  rewrite (get_put_u64 _ _ _ H2). simpl.
  rewrite (get_put_bytes _ _ _ H3). simpl.
  rewrite (get_put_bytes _ _ _ H4). simpl.
  rewrite (get_put_u64 _ _ _ H5). simpl.
  rewrite (get_put_bytes _ _ _ H6). simpl.
  rewrite (get_put_bytes _ _ _ H7). simpl.
  rewrite !string_of_list_byte_of_string.
  by destruct pe as [[sec ns] id model [kind opid payload]].
Qed.

Lemma get_put_patchEvents (l : list patchEvent) (b rest : bytes) :
  put_patchEvents l = Some b → get_patchEvents (length l) (b ++ rest) = Some (l, rest).
Proof.
  revert b. induction l as [|pe l IH]; intros b; simpl.
  - by intros [= <-].
  - destruct (put_patchEvent pe) as [b1|] eqn:H1; [|done].
    destruct (put_patchEvents l) as [b2|] eqn:H2; [|done].
    simpl. intros [= <-]. rewrite <- app_assoc.
    rewrite (get_put_patchEvent _ _ _ H1). simpl.
    by rewrite (IH b2 eq_refl).
Qed.

Lemma binary_codec_decodes (r : recordEvents) (n : bytes) :
  WrapObject (EncoderLib := binaryEncoder) r = Ok n →
  DecodeInto (DecoderLib := binaryDecoder) (RawData (DecoderLib := binaryDecoder) n)
  = Ok r.
Proof.
  simpl. destruct (put_patchEvents (Patches r)) as [body|] eqn:Hbody; [|done].
  case_decide as Hlen; [|done]. intros [= <-].
  assert (N.to_nat (Byte.to_N (byte_of_Z (Z.of_nat (length (Patches r)))))
          = length (Patches r)) as ->.
  { pose proof (byte_of_Z_value (Z.of_nat (length (Patches r)))) as Hv.
    rewrite Z.mod_small in Hv by lia. lia. }
  pose proof (get_put_patchEvents _ _ [] Hbody) as Hget.
  rewrite app_nil_r in Hget. rewrite Hget. by destruct r.
Qed.

(** * More concrete calls of the encoder and the decoder *)

Lemma Create_translated_witness :
  Create (enc := plainEncoder) (lib := wholeDocument) structured [actCreateA; actDeleteA]
  = Returns
      (Some [EvPatch {| Timestamp := {| unixSec := 1575158400; nsec := 0 |};
                        ID := "A"; ModelName := "user";
                        Patch := {| op_Type := operationType.create; op_EntityID := "A";
                                    op_JSONPatch := textBytes "x" |} |};
             EvPatch {| Timestamp := {| unixSec := 1575158401; nsec := 0 |};
                        ID := "A"; ModelName := "user";
                        Patch := {| op_Type := operationType.delete; op_EntityID := "A";
                                    op_JSONPatch := [] |} |}],
       Some (textBytes "x"), None).
Proof.
  refine (eq_trans
            (Create_translated (enc := plainEncoder) (lib := wholeDocument) structured
               [actCreateA; actDeleteA]
               [{| op_Type := operationType.create; op_EntityID := "A";
                   op_JSONPatch := textBytes "x" |};
                {| op_Type := operationType.delete; op_EntityID := "A";
                   op_JSONPatch := [] |}] _) _).
  - repeat constructor.
  - vm_compute. reflexivity.
Defined.

Lemma Create_outcomes_witness :
  Forall2 (λ a e, outcomeOf e = Some (actionRecord a))
    [actCreateA; actDeleteA]
    [EvPatch {| Timestamp := {| unixSec := 1575158400; nsec := 0 |};
                ID := "A"; ModelName := "user";
                Patch := {| op_Type := operationType.create; op_EntityID := "A";
                            op_JSONPatch := textBytes "x" |} |};
     EvPatch {| Timestamp := {| unixSec := 1575158401; nsec := 0 |};
                ID := "A"; ModelName := "user";
                Patch := {| op_Type := operationType.delete; op_EntityID := "A";
                            op_JSONPatch := [] |} |}].
Proof.
  apply (Create_outcomes (enc := plainEncoder) (lib := wholeDocument) structured
           [actCreateA; actDeleteA] _ (textBytes "x")).
  vm_compute. reflexivity.
Defined.

Lemma Create_structured_returns_witness :
  ∃ r, Create (enc := plainEncoder) (lib := wholeDocument) structured
         [actCreateA; actUnmarshallable; actDeleteA] = Returns r.
Proof.
  apply (Create_structured_returns (enc := plainEncoder) (lib := wholeDocument)
           structured [actCreateA; actUnmarshallable; actDeleteA]).
  - reflexivity.
  - constructor; [by left|].
    constructor; [by left|].
    constructor; [by right; right | constructor].
Defined.

Lemma Create_raw_create_panics_witness :
  Create (enc := plainEncoder) (lib := wholeDocument) rawMode [actSaveA; actCreateNil]
  = Panics PanicNilDereference
  ∧ Create (enc := plainEncoder) (lib := wholeDocument) rawMode
      [actSaveA; actUnmarshallable]
    = Panics PanicTypeAssertion.
Proof.
  split.
  - apply (Create_raw_create_panics (enc := plainEncoder) (lib := wholeDocument)
             rawMode [actSaveA] actCreateNil []).
    + reflexivity.
    + constructor; [eexists; reflexivity | constructor].
    + reflexivity.
    + discriminate.
  - apply (Create_raw_create_panics (enc := plainEncoder) (lib := wholeDocument)
             rawMode [actSaveA] actUnmarshallable []).
    + reflexivity.
    + constructor; [eexists; reflexivity | constructor].
    + reflexivity.
    + discriminate.
Defined.

Lemma Create_raw_save_panics_witness :
  Create (enc := plainEncoder) (lib := wholeDocument) rawMode
    [actSaveA;
     {| act_Type := core.Save; act_EntityID := "A"; act_ModelName := "user";
        act_Previous := IStringPtr (Some "x"); act_Current := IStringPtr (Some "y") |}]
  = Panics PanicTypeAssertion.
Proof.
  apply (Create_raw_save_panics (enc := plainEncoder) (lib := wholeDocument)
           rawMode [actSaveA]
           {| act_Type := core.Save; act_EntityID := "A"; act_ModelName := "user";
              act_Previous := IStringPtr (Some "x");
              act_Current := IStringPtr (Some "y") |} []).
  - reflexivity.
  - constructor; [eexists; reflexivity | constructor].
  - reflexivity.
  - intros b s [Hprev _]. discriminate Hprev.
Defined.

Lemma EventsFromBytes_Create_witness :
  ∃ events n,
    Create (enc := binaryEncoder) (lib := wholeDocument) structured
      [actCreateA; actDeleteA] = Returns (Some events, Some n, None) ∧
    EventsFromBytes (dec := binaryDecoder) (RawData (DecoderLib := binaryDecoder) n)
    = (Some events, None).
Proof.
  eexists _, _. split.
  - lazy. reflexivity.
  - apply (EventsFromBytes_Create (enc := binaryEncoder) (lib := wholeDocument)
             (dec := binaryDecoder) structured [actCreateA; actDeleteA]).
    + exact binary_codec_decodes.
    + lazy. reflexivity.
Defined.

(** The decoder on bytes that are no record. *)
Example EventsFromBytes_malformed :
  EventsFromBytes (dec := binaryDecoder) (textBytes "x")
  = (None, Some (External "cbor: cannot decode" None)).
Proof. vm_compute. reflexivity. Qed.

(** * More on the event time *)

Lemma bytes_Compare_value (a b : bytes) :
  length a = length b →
  bytes_Compare a b = (BigEndian_value a ?= BigEndian_value b).
Proof.
  revert b. induction a as [|x a IH]; intros [|y b] Hlen; try done.
  cbn [bytes_Compare]. injection Hlen as Hlen.
  rewrite !BigEndian_value_cons, Hlen.
  pose proof (BigEndian_value_range a) as Ha. rewrite Hlen in Ha.
  pose proof (BigEndian_value_range b) as Hb.
  destruct (N.compare_spec (Byte.to_N x) (Byte.to_N y)) as [Heq|Hlt|Hgt].
  - rewrite Heq, (IH b Hlen).
    destruct (Z.compare_spec (BigEndian_value a) (BigEndian_value b));
      symmetry; [apply Z.compare_eq_iff | apply Z.compare_lt_iff | apply Z.compare_gt_iff];
      lia.
  - symmetry. apply Z.compare_lt_iff. nia.
  - symmetry. apply Z.compare_gt_iff. nia.
Qed.

Lemma patchEvent_Time_value (je : patchEvent) :
  BigEndian_value (patchEvent_Time je) = UnixNano (Timestamp je) mod 2 ^ 64.
Proof.
  unfold patchEvent_Time. apply PutUint64_value. apply Z.mod_pos_bound. lia.
Qed.

(** The byte-wise order of two [Time()] values is the order of the two
    [UnixNano] values read as unsigned 64-bit integers. *)
Theorem patchEvent_Time_compare (je je' : patchEvent) :
  bytes_Compare (patchEvent_Time je) (patchEvent_Time je')
  = (UnixNano (Timestamp je) mod 2 ^ 64 ?= UnixNano (Timestamp je') mod 2 ^ 64).
Proof.
  rewrite bytes_Compare_value by reflexivity. by rewrite !patchEvent_Time_value.
Qed.

(** For two events on the same side of the epoch the byte-wise order of
    [Time()] is exactly the order of the [UnixNano] values: earlier is
    less, equal is equal, later is greater. *)
Theorem patchEvent_Time_same_side (je je' : patchEvent) :
  (0 ≤ UnixNano (Timestamp je) ∧ 0 ≤ UnixNano (Timestamp je')) ∨
  (UnixNano (Timestamp je) < 0 ∧ UnixNano (Timestamp je') < 0) →
  bytes_Compare (patchEvent_Time je) (patchEvent_Time je')
  = (UnixNano (Timestamp je) ?= UnixNano (Timestamp je')).
Proof.
  intros Hside.
  rewrite bytes_Compare_value, !patchEvent_Time_value by reflexivity.
  pose proof (UnixNano_range (Timestamp je)) as Hr.
  pose proof (UnixNano_range (Timestamp je')) as Hr'.
  assert (∀ u, - 2 ^ 63 ≤ u < 0 → u mod 2 ^ 64 = u + 2 ^ 64) as Hneg.
  { intros u Hu. symmetry. apply Z.mod_unique_pos with (q := -1); lia. }
  destruct Hside as [[H0 H0']|[H0 H0']].
  - by rewrite !Z.mod_small by lia.
  - rewrite !Hneg by lia. rewrite !(Z.add_comm _ (2 ^ 64)).
    apply Z.add_compare_mono_l.
Qed.

(** An event before the epoch sorts after every event at or after the
    epoch: its [Time()] is the greater byte string although its time is the
    earlier one. *)
Theorem patchEvent_Time_pre_epoch_sorts_last (je je' : patchEvent) :
  UnixNano (Timestamp je) < 0 →
  0 ≤ UnixNano (Timestamp je') →
  bytes_Compare (patchEvent_Time je) (patchEvent_Time je') = Gt.
Proof.
  intros Hneg Hpos.
  rewrite bytes_Compare_value, !patchEvent_Time_value by reflexivity.
  pose proof (UnixNano_range (Timestamp je)) as Hr.
  pose proof (UnixNano_range (Timestamp je')) as Hr'.
  apply Z.compare_gt_iff.
  rewrite (Z.mod_small (UnixNano (Timestamp je'))) by lia.
  assert (UnixNano (Timestamp je) mod 2 ^ 64 = UnixNano (Timestamp je) + 2 ^ 64) as ->.
  { symmetry. apply Z.mod_unique_pos with (q := -1); lia. }
  lia.
Qed.

(** [Time()] loses nothing of [UnixNano]: read back as a big-endian
    integer and converted to [int64] it is the [UnixNano] value, so two
    events have the same [Time()] exactly when they have the same
    [UnixNano]. *)
Theorem patchEvent_Time_decode (je je' : patchEvent) :
  wrap64 (BigEndian_value (patchEvent_Time je)) = UnixNano (Timestamp je) ∧
  (patchEvent_Time je = patchEvent_Time je' ↔
   UnixNano (Timestamp je) = UnixNano (Timestamp je')).
Proof.
  assert (∀ e, wrap64 (BigEndian_value (patchEvent_Time e)) = UnixNano (Timestamp e))
    as Hdec.
  { intros e. rewrite patchEvent_Time_value. apply wrap64_mod, UnixNano_range. }
  split; [apply Hdec|]. split.
  - intros Heq. by rewrite <- (Hdec je), <- (Hdec je'), Heq.
  - intros Heq. unfold patchEvent_Time. by rewrite Heq.
Qed.

Lemma patchEvent_Time_same_side_witness :
  bytes_Compare (patchEvent_Time (eventAt (-2) 0)) (patchEvent_Time (eventAt (-1) 5)) = Lt.
Proof.
  refine (eq_trans (patchEvent_Time_same_side (eventAt (-2) 0) (eventAt (-1) 5) _) _).
  - right. vm_compute. split; reflexivity.
  - vm_compute. reflexivity.
Defined.

Lemma patchEvent_Time_pre_epoch_sorts_last_witness :
  bytes_Compare (patchEvent_Time (eventAt (-1) 999999999)) (patchEvent_Time (eventAt 0 0))
  = Gt.
Proof.
  apply (patchEvent_Time_pre_epoch_sorts_last (eventAt (-1) 999999999) (eventAt 0 0)).
  - vm_compute. reflexivity.
  - vm_compute. discriminate.
Defined.
